(** * Bridge relayer: a shallow embedding of [script.py]

    The script polls a source chain for [TokensLocked] events and relays each
    one to a destination chain (the submission itself is simulated).  The
    embedding follows the three classes of the script:

    - [EventScanner.scan_blocks]  -> [scan_blocks]
    - [BridgeRelayer.process_event], [BridgeRelayer.run] -> [process_event],
      [run_cycle], [run]
    - [main] -> [main]

    Everything the script obtains from the outside (the RPC nodes, the
    process environment) is an oracle of the record [Env]; everything it does
    to the outside (log lines, sleeps, RPC calls) is appended to a trace. *)

From stdpp Require Import gmap strings list sorting.

Open Scope string_scope.
Open Scope Z_scope.

(** ** Exceptions

    Only subclasses of Python's [Exception] are modelled; the handlers of the
    script tell [ConnectionError] apart from everything else and nothing more. *)

Inductive exn : Type :=
  | ConnectionError (msg : string)
  | ValueError (msg : string)
  | KeyError (key : string)
  | RequestException (msg : string)
  | OtherException (cls msg : string).

Definition is_ConnectionError (e : exn) : bool :=
  match e with
  | ConnectionError _ => true
  | _ => false
  end.

(** ** Data *)

(** The decoded arguments of a [TokensLocked] event. *)
Record EventArgs : Type := {
  nonce : Z;
  recipient : string;
  amount : Z
}.

(** An event log as returned by [get_logs].  [args = None] stands for a log
    whose ['args'] entry cannot be read: the subscript raises [KeyError]. *)
Record LogReceipt : Type := {
  blockNumber : Z;
  logIndex : Z;
  args : option EventArgs
}.

(** [mintTokens(recipient, amount, nonce)] *)
Record MintCall : Type := {
  mint_recipient : string;
  mint_amount : Z;
  mint_sourceNonce : Z
}.

(** The dictionary handed to [build_transaction]. *)
Record TxParams : Type := {
  tx_from : string;
  tx_nonce : Z;
  tx_gas : Z;
  tx_gasPrice : Z
}.

Record TxData : Type := {
  tx_call : MintCall;
  tx_params : TxParams
}.

(** The mutable fields of a [BridgeRelayer] object. *)
Record Relayer : Type := {
  relayer_address : string;
  processed_nonces : gset Z;
  last_processed_block : Z;
  reorg_safety_margin : Z
}.

(** ** Observable effects *)

Inductive Level : Type := INFO | WARNING | ERROR | CRITICAL.

Inductive LogMsg : Type :=
  | MsgConnected (url : string)
  | MsgRequestFailed (url : string) (e : exn)
  | MsgInvalidAddress (address : string)
  | MsgScanning (event_name : string) (from_block to_block : Z)
  | MsgFound (count : nat) (start end_ : Z)
  | MsgFetchError (start end_ : Z) (e : exn)
  | MsgRelayerInitialized (address : string)
  | MsgStartingScan (block : Z)
  | MsgSkipNonce (n : Z)
  | MsgProcessing (n : Z) (amt : Z) (rcpt : string)
  | MsgSimSent (n : Z)
  | MsgSimTxDetails (tx : TxData)
  | MsgProcessFailed (event : LogReceipt) (e : exn)
  | MsgLoopStart
  | MsgNoNewBlocks (latest_block : Z)
  | MsgLoopConnectionError (e : exn)
  | MsgLoopUnexpected (e : exn)
  | MsgEnvNotSet (var_name : string)
  | MsgInitializing
  | MsgContractsFailed
  | MsgInitConnectionFailed (e : exn)
  | MsgInitFatal (e : exn).

Inductive Effect : Type :=
  | ELog (lvl : Level) (m : LogMsg)
  | ESleep (seconds : Z)
  | EConnect (rpc_url : string)
  | EFromKey (pk : string)
  | EBlockNumber
  | EGetLogs (fromBlock toBlock : Z)
  | EMintTokens (call : MintCall)
  | EGetTransactionCount (address : string)
  | EGasPrice
  | EBuildTransaction (call : MintCall) (params : TxParams)
  | ESignTransaction (tx : TxData).

(** What an external call answers. *)
Inductive Answer (A : Type) : Type :=
  | Returns (a : A)
  | Raises (e : exn).
Arguments Returns {A} a.
Arguments Raises {A} e.

(** The outside world.  Every oracle takes the number of external calls made
    so far, so that a node may fail twice and then answer. *)
Record Env : Type := {
  environ : gmap string string;
  py_int : string -> option Z;
  connect : nat -> string -> Answer unit;
  is_address : string -> bool;
  from_key : nat -> string -> Answer string;
  block_number : nat -> Answer Z;
  get_logs : nat -> Z -> Z -> Answer (list LogReceipt);
  mintTokens : nat -> MintCall -> Answer unit;
  get_transaction_count : nat -> string -> Answer Z;
  gas_price : nat -> Answer Z;
  build_transaction : nat -> MintCall -> TxParams -> Answer TxData;
  sign_transaction : nat -> TxData -> Answer string
}.

(** The input/output state: the call counter and the trace, most recent
    effect first. *)
Record IO : Type := {
  tick : nat;
  trace : list Effect
}.

(** The state while a relayer object exists. *)
Record World : Type := {
  self : Relayer;
  io : IO
}.

(** ** A state and exception monad

    [OutOfFuel] marks a loop that was cut by the model's iteration bound; it
    is no Python exception and no handler catches it. *)

Inductive Res (A : Type) : Type :=
  | Ret (a : A)
  | Raise (e : exn)
  | OutOfFuel.
Arguments Ret {A} a.
Arguments Raise {A} e.
Arguments OutOfFuel {A}.

Definition M (S A : Type) : Type := S -> Res A * S.

Definition ret {S A} (a : A) : M S A := fun s => (Ret a, s).

Definition bind {S A B} (m : M S A) (k : A -> M S B) : M S B :=
  fun s =>
    match m s with
    | (Ret a, s') => k a s'
    | (Raise e, s') => (Raise e, s')
    | (OutOfFuel, s') => (OutOfFuel, s')
    end.

Definition raise {S A} (e : exn) : M S A := fun s => (Raise e, s).

Definition out_of_fuel {S A} : M S A := fun s => (OutOfFuel, s).

(** [try: body / except Exception as e: handler e] *)
Definition try_except {S A} (body : M S A) (handler : exn -> M S A) : M S A :=
  fun s =>
    match body s with
    | (Raise e, s') => handler e s'
    | r => r
    end.

Declare Scope py_scope.
Delimit Scope py_scope with py.
Notation "x <- m ;; k" := (bind m (fun x => k))
  (at level 100, m at next level, right associativity) : py_scope.
Notation "m ;;; k" := (bind m (fun _ => k))
  (at level 100, right associativity) : py_scope.
Open Scope py_scope.

Definition emit (ef : Effect) : M IO unit :=
  fun w => (Ret tt, {| tick := tick w; trace := ef :: trace w |}).

Definition log (lvl : Level) (m : LogMsg) : M IO unit := emit (ELog lvl m).

Definition sleep (seconds : Z) : M IO unit := emit (ESleep seconds).

(** An external call: recorded in the trace, answered by the oracle at the
    current tick, and the tick moves on. *)
Definition call {A} (ef : Effect) (oracle : nat -> Answer A) : M IO A :=
  fun w =>
    let w' := {| tick := S (tick w); trace := ef :: trace w |} in
    match oracle (tick w) with
    | Returns a => (Ret a, w')
    | Raises e => (Raise e, w')
    end.

Definition lift {A} (m : M IO A) : M World A :=
  fun w =>
    let '(r, i) := m (io w) in (r, {| self := self w; io := i |}).

Definition get_self : M World Relayer := fun w => (Ret (self w), w).

(** [for x in l: body x] *)
Fixpoint for_each {S A} (l : list A) (body : A -> M S unit) : M S unit :=
  match l with
  | [] => ret tt
  | x :: l' => body x ;;; for_each l' body
  end.

(** ** Ordering of events

    [events.sort(key=lambda e: (e['blockNumber'], e['logIndex']))]: Python
    compares the key tuples lexicographically and its sort is stable; a
    stable insertion sort gives the same list. *)

Definition sort_key (e : LogReceipt) : Z * Z := (blockNumber e, logIndex e).


Definition key_le (k1 k2 : Z * Z) : Prop :=
  k1.1 < k2.1 \/ (k1.1 = k2.1 /\ k1.2 <= k2.2).

Definition key_leb (k1 k2 : Z * Z) : bool :=
  (k1.1 <? k2.1) || ((k1.1 =? k2.1) && (k1.2 <=? k2.2)).

Fixpoint insert_event (x : LogReceipt) (l : list LogReceipt) : list LogReceipt :=
  match l with
  | [] => [x]
  | y :: l' =>
      if key_leb (sort_key x) (sort_key y) then x :: y :: l'
      else y :: insert_event x l'
  end.

Definition sort_events (l : list LogReceipt) : list LogReceipt :=
  foldr insert_event [] l.

(** ** EventScanner *)

Section Program.

Variable env : Env.

(** The [while start <= to_block] loop of [scan_blocks]; [fuel] bounds the
    number of iterations, failed attempts included. *)
Fixpoint scan_loop (fuel : nat) (to_block max_range : Z)
    (start : Z) (all_events : list LogReceipt) : M IO (list LogReceipt) :=
  if start <=? to_block then
    match fuel with
    | O => out_of_fuel
    | S fuel' =>
        let end_ := Z.min (start + max_range - 1) to_block in
        st <- try_except
                (event_logs <- call (EGetLogs start end_)
                                 (fun t => get_logs env t start end_) ;;
                 match event_logs with
                 | [] => ret (all_events, end_ + 1)
                 | _ :: _ =>
                     log INFO (MsgFound (length event_logs) start end_) ;;;
                     ret ((all_events ++ event_logs)%list, end_ + 1)
                 end)
                (fun e =>
                   log ERROR (MsgFetchError start end_ e) ;;;
                   sleep 10 ;;;
                   ret (all_events, start)) ;;
        scan_loop fuel' to_block max_range (snd st) (fst st)
    end
  else ret all_events.

Definition scan_blocks (fuel : nat) (event_name : string)
    (from_block to_block max_range : Z) : M IO (list LogReceipt) :=
  if from_block >? to_block then ret []
  else
    log INFO (MsgScanning event_name from_block to_block) ;;;
    scan_loop fuel to_block max_range from_block [].

(** ** BlockchainConnector *)

Definition is_RequestException (e : exn) : bool :=
  match e with
  | RequestException _ => true
  | _ => false
  end.

(** [BlockchainConnector.__init__], that is [_connect].  The oracle
    [connect] stands for everything the [try] does before its log line: the
    health-check request, the check of its answer, the set-up of the
    provider and [is_connected]; it returns when all of them pass and
    raises what the first failing one raises, the two [ConnectionError]s
    that the [try] builds itself included.  One call of [connect] is one
    construction of a connector, not one request on the network. *)
Definition BlockchainConnector_init (rpc_url : string) : M IO unit :=
  try_except
    (call (EConnect rpc_url) (fun t => connect env t rpc_url) ;;;
     log INFO (MsgConnected rpc_url))
    (fun e =>
       if is_RequestException e then
         log ERROR (MsgRequestFailed rpc_url e) ;;;
         raise (ConnectionError
                  (String.append "Could not reach RPC endpoint: " rpc_url))
       else raise e).

(** [get_contract]: [None] for an invalid address. *)
Definition get_contract (address : string) : M IO (option string) :=
  if is_address env address then ret (Some address)
  else log ERROR (MsgInvalidAddress address) ;;; ret None.

Definition get_latest_block : M IO Z :=
  call EBlockNumber (block_number env).

(** ** BridgeRelayer *)

(** [not s] for a Python string. *)
Definition str_falsy (s : string) : bool :=
  match s with
  | EmptyString => true
  | String _ _ => false
  end.

Definition BridgeRelayer_init (relayer_pk : string) (start_block : Z)
    : M IO Relayer :=
  if str_falsy relayer_pk then raise (ValueError "Relayer private key is not set.")
  else
    address <- call (EFromKey relayer_pk) (fun t => from_key env t relayer_pk) ;;
    log INFO (MsgRelayerInitialized address) ;;;
    log INFO (MsgStartingScan start_block) ;;;
    ret {| relayer_address := address;
           processed_nonces := ∅;
           last_processed_block := start_block;
           reorg_safety_margin := 5 |}.

(** [event['args']] *)
Definition subscript_args (event : LogReceipt) : M World EventArgs :=
  match args event with
  | Some a => ret a
  | None => raise (KeyError "args")
  end.

Definition add_processed_nonce (n : Z) : M World unit :=
  fun w =>
    let r := self w in
    (Ret tt,
     {| self := {| relayer_address := relayer_address r;
                   processed_nonces := processed_nonces r ∪ {[ n ]};
                   last_processed_block := last_processed_block r;
                   reorg_safety_margin := reorg_safety_margin r |};
        io := io w |}).

Definition set_last_processed_block (b : Z) : M World unit :=
  fun w =>
    let r := self w in
    (Ret tt,
     {| self := {| relayer_address := relayer_address r;
                   processed_nonces := processed_nonces r;
                   last_processed_block := b;
                   reorg_safety_margin := reorg_safety_margin r |};
        io := io w |}).

(** The body of the [try] of [process_event]. *)
Definition process_event_body (event : LogReceipt) : M World unit :=
  a <- subscript_args event ;;
  r <- get_self ;;
  if decide (nonce a ∈ processed_nonces r) then
    lift (log WARNING (MsgSkipNonce (nonce a)))
  else
    lift (log INFO (MsgProcessing (nonce a) (amount a) (recipient a))) ;;;
    let mint := {| mint_recipient := recipient a;
                   mint_amount := amount a;
                   mint_sourceNonce := nonce a |} in
    lift (call (EMintTokens mint) (fun t => mintTokens env t mint)) ;;;
    count <- lift (call (EGetTransactionCount (relayer_address r))
                     (fun t => get_transaction_count env t (relayer_address r))) ;;
    price <- lift (call EGasPrice (gas_price env)) ;;
    let params := {| tx_from := relayer_address r;
                     tx_nonce := count;
                     tx_gas := 200000;
                     tx_gasPrice := price |} in
    tx_data <- lift (call (EBuildTransaction mint params)
                       (fun t => build_transaction env t mint params)) ;;
    lift (call (ESignTransaction tx_data)
            (fun t => sign_transaction env t tx_data)) ;;;
    lift (log INFO (MsgSimSent (nonce a))) ;;;
    lift (log INFO (MsgSimTxDetails tx_data)) ;;;
    add_processed_nonce (nonce a).

Definition process_event (event : LogReceipt) : M World unit :=
  try_except (process_event_body event)
    (fun e => lift (log ERROR (MsgProcessFailed event e))).

(** The body of the [try] inside [while True].  The loop over the events
    calls [self.process_event(event)], a method that Python looks up on the
    object at each call: the body is written for whatever method [handler]
    is bound there, and [run_cycle_body] is the body with the script's own
    [process_event]. *)
Definition run_cycle_body_with (handler : LogReceipt -> M World unit)
    (fuel : nat) (poll_interval : Z) : M World unit :=
  latest_block <- lift get_latest_block ;;
  r <- get_self ;;
  let to_block := latest_block - reorg_safety_margin r in
  (if to_block >? last_processed_block r then
     events <- lift (scan_blocks fuel "TokensLocked"
                       (last_processed_block r + 1) to_block 1000) ;;
     match events with
     | [] => ret tt
     | _ :: _ => for_each (sort_events events) handler
     end ;;;
     set_last_processed_block to_block
   else lift (log INFO (MsgNoNewBlocks latest_block))) ;;;
  lift (sleep poll_interval).

Definition run_cycle_body (fuel : nat) (poll_interval : Z) : M World unit :=
  run_cycle_body_with process_event fuel poll_interval.

(** One iteration of [while True], handlers included. *)
Definition run_cycle (fuel : nat) (poll_interval : Z) : M World unit :=
  try_except (run_cycle_body fuel poll_interval)
    (fun e =>
       if is_ConnectionError e then
         lift (log ERROR (MsgLoopConnectionError e)) ;;;
         lift (sleep 60)
       else
         lift (log CRITICAL (MsgLoopUnexpected e)) ;;;
         lift (sleep 30)).

(** [while True]: the model stops after [cycles] iterations. *)
Fixpoint run_loop (cycles fuel : nat) (poll_interval : Z) : M World unit :=
  match cycles with
  | O => out_of_fuel
  | S cycles' =>
      run_cycle fuel poll_interval ;;;
      run_loop cycles' fuel poll_interval
  end.

Definition run (cycles fuel : nat) (poll_interval : Z) : M World unit :=
  lift (log INFO MsgLoopStart) ;;;
  run_loop cycles fuel poll_interval.

(** ** main *)

Definition getenv (key : string) : option string := environ env !! key.

(** [not value] for the result of [os.getenv]. *)
Definition falsy (value : option string) : bool :=
  match value with
  | None => true
  | Some s => str_falsy s
  end.

(** The validation loop: the name of the first variable whose value is
    falsy, in the insertion order of [required_vars]. *)
Fixpoint first_unset (required_vars : list (string * option string))
    : option string :=
  match required_vars with
  | [] => None
  | (var_name, value) :: rest =>
      if falsy value then Some var_name else first_unset rest
  end.

Definition required_vars : list (string * option string) :=
  [ ("SOURCE_CHAIN_RPC_URL", getenv "SOURCE_CHAIN_RPC_URL");
    ("DESTINATION_CHAIN_RPC_URL", getenv "DESTINATION_CHAIN_RPC_URL");
    ("SOURCE_BRIDGE_CONTRACT_ADDRESS", getenv "SOURCE_BRIDGE_CONTRACT_ADDRESS");
    ("DESTINATION_BRIDGE_CONTRACT_ADDRESS",
      getenv "DESTINATION_BRIDGE_CONTRACT_ADDRESS");
    ("RELAYER_PRIVATE_KEY", getenv "RELAYER_PRIVATE_KEY") ].

(** Runs [m] on a world made of the relayer [r] and the current input/output
    state. *)
Definition with_relayer {A} (r : Relayer) (m : M World A) : M IO A :=
  fun i =>
    let '(res, w) := m {| self := r; io := i |} in (res, io w).

(** The [try] block of [main]. *)
Definition main_body (cycles fuel : nat) (START_BLOCK : Z) : M IO unit :=
  log INFO MsgInitializing ;;;
  BlockchainConnector_init (default "" (getenv "SOURCE_CHAIN_RPC_URL")) ;;;
  BlockchainConnector_init (default "" (getenv "DESTINATION_CHAIN_RPC_URL")) ;;;
  source_contract <-
    get_contract (default "" (getenv "SOURCE_BRIDGE_CONTRACT_ADDRESS")) ;;
  dest_contract <-
    get_contract (default "" (getenv "DESTINATION_BRIDGE_CONTRACT_ADDRESS")) ;;
  match source_contract, dest_contract with
  | Some _, Some _ =>
      relayer <- BridgeRelayer_init
                   (default "" (getenv "RELAYER_PRIVATE_KEY")) START_BLOCK ;;
      with_relayer relayer (run cycles fuel 15)
  | _, _ => log ERROR MsgContractsFailed
  end.

Definition main (cycles fuel : nat) : M IO unit :=
  match py_int env (default "0" (getenv "START_BLOCK")) with
  | None => raise (ValueError "invalid literal for int()")
  | Some START_BLOCK =>
      match first_unset required_vars with
      | Some var_name => log ERROR (MsgEnvNotSet var_name)
      | None =>
          try_except (main_body cycles fuel START_BLOCK)
            (fun e =>
               if is_ConnectionError e then
                 log CRITICAL (MsgInitConnectionFailed e)
               else log CRITICAL (MsgInitFatal e))
      end
  end.

End Program.

(** The exit status of the interpreter running the script: 0 when [main]
    returns, 1 when an exception reaches the top level; a run that was cut
    by the iteration bound has none. *)
Definition exit_status (r : Res unit) : option Z :=
  match r with
  | Ret _ => Some 0
  | Raise _ => Some 1
  | OutOfFuel => None
  end.

Definition io0 : IO := {| tick := O; trace := [] |}.

(** * Vocabulary of the statements *)

Section Vocabulary.

Variable env : Env.

(** The input/output state after [effects] happened, the last one first,
    [calls] of them external calls. *)
Definition after (calls : nat) (effects : list Effect) (i : IO) : IO :=
  {| tick := calls + tick i; trace := effects ++ trace i |}.

Definition with_io (w : World) (i : IO) : World :=
  {| self := self w; io := i |}.

Definition chunk_end (start max_range to_block : Z) : Z :=
  Z.min (start + max_range - 1) to_block.

(** What a successful fetch adds to the trace. *)
Definition fetched (start end_ : Z) (event_logs : list LogReceipt) : list Effect :=
  match event_logs with
  | [] => [EGetLogs start end_]
  | _ :: _ => [ELog INFO (MsgFound (length event_logs) start end_);
               EGetLogs start end_]
  end.

(** What a failed fetch adds to the trace. *)
Definition refused (start end_ : Z) (e : exn) : list Effect :=
  [ESleep 10; ELog ERROR (MsgFetchError start end_ e); EGetLogs start end_].

(** An effect the scanner may produce while it works on [lo..hi]: a log
    line, a sleep, or a query inside the window. *)
Definition scan_effect (lo hi : Z) (ef : Effect) : Prop :=
  match ef with
  | ELog _ _ | ESleep _ => True
  | EGetLogs f t => lo <= f /\ f <= t /\ t <= hi
  | _ => False
  end.

(** A node that answers a query only with events of the queried range. *)
Definition honours_range : Prop :=
  forall t a b event_logs,
    get_logs env t a b = Returns event_logs ->
    Forall (fun ev => a <= blockNumber ev <= b) event_logs.

(** The effects of handling an event: log lines and calls to the
    destination chain, never a query to the source chain. *)
Definition handling_effect (ef : Effect) : Prop :=
  match ef with
  | ELog _ _ | EMintTokens _ | EGetTransactionCount _ | EGasPrice
  | EBuildTransaction _ _ | ESignTransaction _ => True
  | _ => False
  end.

Definition grows (i i' : IO) : Prop :=
  exists new, trace i' = (new ++ trace i)%list /\ Forall handling_effect new.

(** What [process_event] and the loop over the events leave alone: the
    address, the watermark and the margin; nonces are only added and the
    trace only grows. *)
Definition steady (w w' : World) : Prop :=
  relayer_address (self w') = relayer_address (self w)
  /\ last_processed_block (self w') = last_processed_block (self w)
  /\ reorg_safety_margin (self w') = reorg_safety_margin (self w)
  /\ processed_nonces (self w) ⊆ processed_nonces (self w')
  /\ grows (io w) (io w').

(** The world after the handler of [process_event] logged the failure. *)
Definition failure_logged (event : LogReceipt) (e : exn) (w : World) : World :=
  with_io w (after 0 [ELog ERROR (MsgProcessFailed event e)] (io w)).

(** The key of the event is in the set of actioned keys. *)
Definition recorded (r : Relayer) (event : LogReceipt) : Prop :=
  exists a, args event = Some a /\ nonce a ∈ processed_nonces r.

(** The effect happened after the moment [i0]. *)
Definition happened_since (i0 : IO) (w : World) (ef : Effect) : Prop :=
  exists new, trace (io w) = (new ++ trace i0)%list /\ ef ∈ new.

(** An event is settled in [w] when its nonce is in [processed_nonces] or
    the failure of its handling went to the log, at level ERROR, after the
    moment [i0]. *)
Definition settled (i0 : IO) (w : World) (event : LogReceipt) : Prop :=
  recorded (self w) event
  \/ exists e, happened_since i0 w (ELog ERROR (MsgProcessFailed event e)).

Definition event_le (x y : LogReceipt) : Prop := key_le (sort_key x) (sort_key y).


(** The upper end of the window for head [H]. *)
Definition window_top (H : Z) (w : World) : Z := H - reorg_safety_margin (self w).

(** The world after the head height was asked for. *)
Definition head_read (w : World) : World :=
  with_io w (after 1 [EBlockNumber] (io w)).

(** The world after [last_processed_block = to_block] and the poll sleep. *)
Definition advanced (to_block poll_interval : Z) (w : World) : World :=
  {| self := {| relayer_address := relayer_address (self w);
                processed_nonces := processed_nonces (self w);
                last_processed_block := to_block;
                reorg_safety_margin := reorg_safety_margin (self w) |};
     io := after 0 [ESleep poll_interval] (io w) |}.

(** The world after one of the two handlers of the main loop ran. *)
Definition loop_handled (e : exn) (w : World) : World :=
  with_io w
    (after 0
       (if is_ConnectionError e
        then [ESleep 60; ELog ERROR (MsgLoopConnectionError e)]
        else [ESleep 30; ELog CRITICAL (MsgLoopUnexpected e)])
       (io w)).

(** The scan a cycle starts for head [H]. *)
Definition cycle_scan (fuel : nat) (H : Z) (w : World) : Res (list LogReceipt) * IO :=
  scan_blocks env fuel "TokensLocked"
    (last_processed_block (self w) + 1) (window_top H w) 1000 (io (head_read w)).

(** The four ways a cycle can go. *)
Inductive cycle_outcome (fuel : nat) (poll : Z) (w : World)
    : Res unit -> World -> Prop :=
  | cycle_head_raises e :
      block_number env (tick (io w)) = Raises e ->
      cycle_outcome fuel poll w (Ret tt) (loop_handled e (head_read w))
  | cycle_no_window H :
      block_number env (tick (io w)) = Returns H ->
      window_top H w <= last_processed_block (self w) ->
      cycle_outcome fuel poll w (Ret tt)
        (with_io w (after 1 [ESleep poll; ELog INFO (MsgNoNewBlocks H);
                             EBlockNumber] (io w)))
  | cycle_stuck H i1 :
      block_number env (tick (io w)) = Returns H ->
      last_processed_block (self w) < window_top H w ->
      cycle_scan fuel H w = (OutOfFuel, i1) ->
      cycle_outcome fuel poll w OutOfFuel (with_io w i1)
  | cycle_relayed H evs i1 w2 :
      block_number env (tick (io w)) = Returns H ->
      last_processed_block (self w) < window_top H w ->
      cycle_scan fuel H w = (Ret evs, i1) ->
      for_each (sort_events evs) (process_event env) (with_io w i1) = (Ret tt, w2) ->
      steady (with_io w i1) w2 ->
      Forall (settled i1 w2) (sort_events evs) ->
      cycle_outcome fuel poll w (Ret tt) (advanced (window_top H w) poll w2).

End Vocabulary.

(** * The claims of the specification, as the specification states them

    Where the script does something else than the specification says, the
    sentence of the specification is written down here as it stands, to be
    refuted at a concrete input. *)

Section Claimed.

Variable env : Env.


(** "An event whose action could not be confirmed aborts the cycle; the
    watermark does not advance past it."  The failure of an event shows as
    the log line of the handler of [process_event]. *)
Definition claimed_unconfirmed_holds_watermark (fuel : nat) (poll : Z) (w : World)
    : Prop :=
  forall r w' event e,
    run_cycle env fuel poll w = (r, w') ->
    ELog ERROR (MsgProcessFailed event e) ∈ trace (io w') ->
    ELog ERROR (MsgProcessFailed event e) ∉ trace (io w) ->
    last_processed_block (self w') < blockNumber event.

(** The failures the specification calls fatal: a malformed response, a
    decode error. *)
Definition spec_fatal (e : exn) : bool :=
  match e with
  | ValueError _ => true
  | _ => false
  end.

(** "A failure classified as fatal is propagated to the caller." *)
Definition claimed_fatal_propagates (fuel : nat) (name : string)
    (from_block to_block max_range : Z) (i : IO) : Prop :=
  forall e,
    get_logs env (tick i) from_block (chunk_end from_block max_range to_block)
      = Raises e ->
    spec_fatal e = true ->
    exists i', scan_blocks env fuel name from_block to_block max_range i
               = (Raise e, i').

(** "Every fatal error reaching the main loop halts the loop": the loop
    ends by itself, not because the bound of the model was reached. *)
Definition claimed_fatal_halts (cycles fuel : nat) (poll : Z) (w : World) : Prop :=
  forall e,
    block_number env (tick (io w)) = Raises e ->
    is_ConnectionError e = false ->
    (run_loop env cycles fuel poll w).1 <> OutOfFuel.

(** "If a required value is absent the process exits with a non-zero
    status." *)
Definition claimed_missing_config_exit (cycles fuel : nat) (i : IO) : Prop :=
  first_unset (required_vars env) <> None ->
  exists code, exit_status (main env cycles fuel i).1 = Some code /\ code <> 0.

End Claimed.

(** * Concrete nodes and worlds for the examples *)

Module Scenario.

(** A [TokensLocked] event at [height], position [index], with nonce [n]. *)
Definition transfer (height index n : Z) : LogReceipt :=
  {| blockNumber := height;
     logIndex := index;
     args := Some {| nonce := n; recipient := "0xRecipient"; amount := 10 |} |}.

(** [int] on a plain string of decimal digits. *)
Definition digit_value (c : Ascii.ascii) : option Z :=
  let n := Z.of_nat (Ascii.nat_of_ascii c) in
  if (48 <=? n) && (n <=? 57) then Some (n - 48) else None.

Fixpoint digits_value (acc : Z) (s : string) : option Z :=
  match s with
  | EmptyString => Some acc
  | String c s' =>
      match digit_value c with
      | Some d => digits_value (10 * acc + d) s'
      | None => None
      end
  end.

Definition decimal_int (s : string) : option Z :=
  match s with
  | EmptyString => None
  | _ => digits_value 0 s
  end.

Definition accept_build (t : nat) (c : MintCall) (p : TxParams) : Answer TxData :=
  Returns {| tx_call := c; tx_params := p |}.

Definition node (vars : gmap string string)
    (head : nat -> Answer Z)
    (logs : nat -> Z -> Z -> Answer (list LogReceipt))
    (build : nat -> MintCall -> TxParams -> Answer TxData) : Env :=
  {| environ := vars;
     py_int := decimal_int;
     connect := fun _ _ => Returns tt;
     is_address := fun _ => true;
     from_key := fun _ _ => Returns "0xRelayer";
     block_number := head;
     get_logs := logs;
     mintTokens := fun _ _ => Returns tt;
     get_transaction_count := fun _ _ => Returns 0;
     gas_price := fun _ => Returns 1;
     build_transaction := build;
     sign_transaction := fun _ _ => Returns "0xSigned" |}.

(** Head 100, no events anywhere, no configuration. *)
Definition quiet : Env :=
  node ∅ (fun _ => Returns 100) (fun _ _ _ => Returns []) accept_build.

(** Two events in block 93, returned out of order by the node. *)
Definition logs_at_93 (a b : Z) : list LogReceipt :=
  if (a <=? 93) && (93 <=? b) then [transfer 93 1 8; transfer 93 0 7] else [].

Definition mint_of (n : Z) : MintCall :=
  {| mint_recipient := "0xRecipient"; mint_amount := 10; mint_sourceNonce := n |}.

Definition params : TxParams :=
  {| tx_from := "0xRelayer"; tx_nonce := 0; tx_gas := 200000; tx_gasPrice := 1 |}.

Definition not_confirmed : exn :=
  OtherException "ReadTimeout" "destination node did not answer".

(** Head 100 at first and 110 later; building the transaction for nonce 7
    fails, every time. *)
Definition unconfirmed : Env :=
  node ∅ (fun t => match t with
                   | O => Returns 100
                   | S _ => Returns 110
                   end)
    (fun _ a b => Returns (logs_at_93 a b))
    (fun t c p =>
       if mint_sourceNonce c =? 7 then Raises not_confirmed
       else accept_build t c p).

(** What the first cycle of [unconfirmed] does, the last effect first. *)
Definition first_cycle_trace : list Effect :=
  [ ESleep 15;
    ELog INFO (MsgSimTxDetails {| tx_call := mint_of 8; tx_params := params |});
    ELog INFO (MsgSimSent 8);
    ESignTransaction {| tx_call := mint_of 8; tx_params := params |};
    EBuildTransaction (mint_of 8) params;
    EGasPrice;
    EGetTransactionCount "0xRelayer";
    EMintTokens (mint_of 8);
    ELog INFO (MsgProcessing 8 10 "0xRecipient");
    ELog ERROR (MsgProcessFailed (transfer 93 0 7) not_confirmed);
    EBuildTransaction (mint_of 7) params;
    EGasPrice;
    EGetTransactionCount "0xRelayer";
    EMintTokens (mint_of 7);
    ELog INFO (MsgProcessing 7 10 "0xRecipient");
    ELog INFO (MsgFound 2 91 95);
    EGetLogs 91 95;
    ELog INFO (MsgScanning "TokensLocked" 91 95);
    EBlockNumber ].

(** A source node whose answers cannot be decoded. *)
Definition malformed : Env :=
  node ∅ (fun _ => Returns 100)
    (fun _ _ _ => Raises (ValueError "malformed response")) accept_build.

(** The first request for the head fails with an error that is no
    [ConnectionError]; later ones answer 100. *)
Definition faulty_head : Env :=
  node ∅
    (fun t => match t with
              | O => Raises (ValueError "invalid contract binding")
              | S _ => Returns 100
              end)
    (fun _ _ _ => Returns []) accept_build.

Definition relayer_at (block : Z) (nonces : gset Z) : Relayer :=
  {| relayer_address := "0xRelayer";
     processed_nonces := nonces;
     last_processed_block := block;
     reorg_safety_margin := 5 |}.

Definition world_at (block : Z) (nonces : gset Z) : World :=
  {| self := relayer_at block nonces; io := io0 |}.

End Scenario.

(** * Vocabulary of the further properties *)

Section Further.

Variable env : Env.

(** The source node answers every query made at tick [k0] or later. *)
Definition answers_from (k0 : nat) : Prop :=
  forall t a b, (k0 <= t)%nat -> exists event_logs, get_logs env t a b = Returns event_logs.

(** The events of [ledger] with a height in [a..b]. *)
Definition in_range (a b : Z) (ledger : list LogReceipt) : list LogReceipt :=
  filter (fun ev => a <= blockNumber ev /\ blockNumber ev <= b) ledger.

(** Whenever the source node answers, it answers with the events of
    [ledger] in the queried range; it may still fail at any time. *)
Definition ledger_node (ledger : list LogReceipt) : Prop :=
  forall t a b event_logs,
    get_logs env t a b = Returns event_logs -> event_logs = in_range a b ledger.

(** A query spans at most [max_range] blocks, and fewer only when it ends at
    [to_block]. *)
Definition chunk_effect (max_range to_block : Z) (ef : Effect) : Prop :=
  match ef with
  | EGetLogs f t =>
      t - f + 1 <= max_range /\ (t = to_block \/ t - f + 1 = max_range)
  | _ => True
  end.

(** The nonces for which the relayer reached the point of submission, the
    log line [[SIMULATION] Sent 'mintTokens' transaction], last one first. *)
Fixpoint sent (tr : list Effect) : list Z :=
  match tr with
  | [] => []
  | ELog _ (MsgSimSent n) :: tr' => n :: sent tr'
  | _ :: tr' => sent tr'
  end.

(** No nonce was submitted twice, and every submitted nonce is in
    [processed_nonces]. *)
Definition delivered_once (w : World) : Prop :=
  NoDup (sent (trace (io w)))
  /\ forall n, n ∈ sent (trace (io w)) -> n ∈ processed_nonces (self w).

(** From [w] to [w']: the address and the margin are the same, the
    watermark did not go back and no nonce was forgotten. *)
Definition progress (w w' : World) : Prop :=
  relayer_address (self w') = relayer_address (self w)
  /\ reorg_safety_margin (self w') = reorg_safety_margin (self w)
  /\ last_processed_block (self w) <= last_processed_block (self w')
  /\ processed_nonces (self w) ⊆ processed_nonces (self w').

(** Every ledger event above [lo] and up to the watermark of [w] has its
    nonce in [processed_nonces]. *)
Definition caught_up (ledger : list LogReceipt) (lo : Z) (w : World) : Prop :=
  forall ev,
    ev ∈ ledger ->
    lo < blockNumber ev ->
    blockNumber ev <= last_processed_block (self w) ->
    recorded (self w) ev.


(** The destination node answers every call. *)
Definition reliable_destination : Prop :=
  (forall t c, mintTokens env t c = Returns tt)
  /\ (forall t a, exists n, get_transaction_count env t a = Returns n)
  /\ (forall t, exists p, gas_price env t = Returns p)
  /\ (forall t c p, exists tx, build_transaction env t c p = Returns tx)
  /\ (forall t tx, exists raw, sign_transaction env t tx = Returns raw).

(** What [_connect] raises when the health check raised [e]. *)
Definition connect_failure (rpc_url : string) (e : exn) : exn :=
  if is_RequestException e
  then ConnectionError (String.append "Could not reach RPC endpoint: " rpc_url)
  else e.

(** What [_connect] logs when the health check raised [e]. *)
Definition connect_failure_log (rpc_url : string) (e : exn) : list Effect :=
  if is_RequestException e then [ELog ERROR (MsgRequestFailed rpc_url e)] else [].

(** The line the handlers of [main] write for the exception [e]. *)
Definition init_report (e : exn) : Effect :=
  ELog CRITICAL
    (if is_ConnectionError e then MsgInitConnectionFailed e else MsgInitFatal e).

(** What [get_contract] logs for [address]. *)
Definition address_log (address : string) : list Effect :=
  if is_address env address then [] else [ELog ERROR (MsgInvalidAddress address)].

(** The configuration passed the validation of [main]. *)
Definition configured (START_BLOCK : Z) : Prop :=
  py_int env (default "0" (getenv env "START_BLOCK")) = Some START_BLOCK
  /\ first_unset (required_vars env) = None.

Definition source_url : string := default "" (getenv env "SOURCE_CHAIN_RPC_URL").

Definition dest_url : string := default "" (getenv env "DESTINATION_CHAIN_RPC_URL").

Definition source_address : string :=
  default "" (getenv env "SOURCE_BRIDGE_CONTRACT_ADDRESS").

Definition dest_address : string :=
  default "" (getenv env "DESTINATION_BRIDGE_CONTRACT_ADDRESS").

Definition relayer_key : string := default "" (getenv env "RELAYER_PRIVATE_KEY").

(** The trace of [main] up to the two connections, both successful. *)
Definition connected_trace : list Effect :=
  [ ELog INFO (MsgConnected dest_url); EConnect dest_url;
    ELog INFO (MsgConnected source_url); EConnect source_url;
    ELog INFO MsgInitializing ].

End Further.

Module Examples.

(** The ledger of the examples: two events in block 93. *)
Definition ledger : list LogReceipt :=
  [Scenario.transfer 93 1 8; Scenario.transfer 93 0 7].

(** A source node that fails its first two calls with a timeout and then
    answers from [ledger]; the head is 100. *)
Definition flaky : Env :=
  Scenario.node ∅ (fun _ => Returns 100)
    (fun t a b =>
       if (t <? 2)%nat then Raises (OtherException "ReadTimeout" "source node busy")
       else Returns (in_range a b ledger))
    Scenario.accept_build.

(** A source node that always answers from [ledger]; the head is 100. *)
Definition steady_node : Env :=
  Scenario.node ∅ (fun _ => Returns 100)
    (fun _ a b => Returns (in_range a b ledger))
    Scenario.accept_build.

Definition full_config : gmap string string :=
  {[ "SOURCE_CHAIN_RPC_URL" := "http://source";
     "DESTINATION_CHAIN_RPC_URL" := "http://dest";
     "SOURCE_BRIDGE_CONTRACT_ADDRESS" := "0xSourceBridge";
     "DESTINATION_BRIDGE_CONTRACT_ADDRESS" := "0xDestBridge";
     "RELAYER_PRIVATE_KEY" := "0xKey";
     "START_BLOCK" := "90" ]}.

(** An environment with a complete configuration and nodes that answer. *)
Definition configured_node : Env :=
  Scenario.node full_config (fun _ => Returns 100)
    (fun _ a b => Returns (in_range a b ledger))
    Scenario.accept_build.

(** A complete configuration, except that [START_BLOCK] is no number. *)
Definition bad_start : Env :=
  Scenario.node (<[ "START_BLOCK" := "abc" ]> full_config)
    (fun _ => Returns 100) (fun _ _ _ => Returns []) Scenario.accept_build.

(** A complete configuration; the source node cannot be reached. *)
Definition unreachable_source : Env :=
  {| environ := full_config;
     py_int := Scenario.decimal_int;
     connect := fun _ url =>
                  if String.eqb url "http://source"
                  then Raises (RequestException "connection refused")
                  else Returns tt;
     is_address := fun _ => true;
     from_key := fun _ _ => Returns "0xRelayer";
     block_number := fun _ => Returns 100;
     get_logs := fun _ _ _ => Returns [];
     mintTokens := fun _ _ => Returns tt;
     get_transaction_count := fun _ _ => Returns 0;
     gas_price := fun _ => Returns 1;
     build_transaction := Scenario.accept_build;
     sign_transaction := fun _ _ => Returns "0xSigned" |}.

(** A complete configuration; the address of the destination contract is
    not a valid address. *)
Definition bad_address : Env :=
  {| environ := full_config;
     py_int := Scenario.decimal_int;
     connect := fun _ _ => Returns tt;
     is_address := fun a => negb (String.eqb a "0xDestBridge");
     from_key := fun _ _ => Returns "0xRelayer";
     block_number := fun _ => Returns 100;
     get_logs := fun _ _ _ => Returns [];
     mintTokens := fun _ _ => Returns tt;
     get_transaction_count := fun _ _ => Returns 0;
     gas_price := fun _ => Returns 1;
     build_transaction := Scenario.accept_build;
     sign_transaction := fun _ _ => Returns "0xSigned" |}.

End Examples.

(** * Properties *)

(** ** The monad *)

Lemma bind_Ret {S A B} (m : M S A) (k : A -> M S B) s a s' :
  m s = (Ret a, s') -> bind m k s = k a s'.
Proof. intros H. unfold bind. now rewrite H. Qed.

Lemma try_except_Raise {S A} (body : M S A) handler s e s' :
  body s = (Raise e, s') -> try_except body handler s = handler e s'.
Proof. intros H. unfold try_except. now rewrite H. Qed.

Lemma try_except_Ret {S A} (body : M S A) handler s a s' :
  body s = (Ret a, s') -> try_except body handler s = (Ret a, s').
Proof. intros H. unfold try_except. now rewrite H. Qed.

(** ** The scanning loop, one iteration at a time *)

Section Scanner.

Variable env : Env.

Lemma scan_loop_done fuel to_block max_range start all_events i :
  to_block < start ->
  scan_loop env fuel to_block max_range start all_events i = (Ret all_events, i).
Proof.
  intros Hlt. destruct fuel; simpl;
    (destruct (start <=? to_block) eqn:E; [apply Z.leb_le in E; lia | reflexivity]).
Qed.

Lemma scan_loop_exhausted to_block max_range start all_events i :
  start <= to_block ->
  scan_loop env O to_block max_range start all_events i = (OutOfFuel, i).
Proof.
  intros Hle. simpl. apply Z.leb_le in Hle. now rewrite Hle.
Qed.

Lemma scan_loop_fetched fuel to_block max_range start all_events i event_logs :
  start <= to_block ->
  get_logs env (tick i) start (chunk_end start max_range to_block)
    = Returns event_logs ->
  scan_loop env (S fuel) to_block max_range start all_events i
  = scan_loop env fuel to_block max_range
      (chunk_end start max_range to_block + 1)
      (all_events ++ event_logs)%list
      (after 1 (fetched start (chunk_end start max_range to_block) event_logs) i).
Proof.
  intros Hle Hget. apply Z.leb_le in Hle. unfold chunk_end in *.
  simpl. rewrite Hle.
  unfold bind, try_except, call. rewrite Hget.
  destruct event_logs as [|x l]; simpl.
  - now rewrite app_nil_r.
  - reflexivity.
Qed.

Lemma scan_loop_refused fuel to_block max_range start all_events i e :
  start <= to_block ->
  get_logs env (tick i) start (chunk_end start max_range to_block) = Raises e ->
  scan_loop env (S fuel) to_block max_range start all_events i
  = scan_loop env fuel to_block max_range start all_events
      (after 1 (refused start (chunk_end start max_range to_block) e) i).
Proof.
  intros Hle Hget. apply Z.leb_le in Hle. unfold chunk_end in *.
  simpl. rewrite Hle.
  unfold bind, try_except, call. rewrite Hget. reflexivity.
Qed.

(** The loop has no way out for an exception. *)
Lemma scan_loop_no_raise fuel to_block max_range start all_events i e i' :
  scan_loop env fuel to_block max_range start all_events i <> (Raise e, i').
Proof.
  revert start all_events i.
  induction fuel as [|fuel IH]; intros start all_events i.
  - destruct (Z_le_gt_dec start to_block) as [Hle|Hgt].
    + now rewrite scan_loop_exhausted.
    + rewrite scan_loop_done by lia. discriminate.
  - destruct (Z_le_gt_dec start to_block) as [Hle|Hgt].
    + destruct (get_logs env (tick i) start (chunk_end start max_range to_block))
        as [event_logs|x] eqn:Hget.
      * rewrite (scan_loop_fetched _ _ _ _ _ _ _ Hle Hget). apply IH.
      * rewrite (scan_loop_refused _ _ _ _ _ _ _ Hle Hget). apply IH.
    + rewrite scan_loop_done by lia. discriminate.
Qed.

Lemma scan_blocks_no_raise fuel name from_block to_block max_range i e i' :
  scan_blocks env fuel name from_block to_block max_range i <> (Raise e, i').
Proof.
  unfold scan_blocks. destruct (from_block >? to_block).
  - discriminate.
  - unfold bind, log, emit. apply scan_loop_no_raise.
Qed.

Lemma scan_effect_weaken lo lo' hi ef :
  lo' <= lo -> scan_effect lo hi ef -> scan_effect lo' hi ef.
Proof. destruct ef; simpl; try tauto. lia. Qed.

Lemma scan_loop_effects fuel to_block max_range start all_events i r i' :
  0 < max_range ->
  scan_loop env fuel to_block max_range start all_events i = (r, i') ->
  exists new, trace i' = (new ++ trace i)%list
              /\ Forall (scan_effect start to_block) new.
Proof.
  intros Hmax. revert start all_events i.
  induction fuel as [|fuel IH]; intros start all_events i Hrun.
  - exists []. split; [|constructor].
    destruct (Z_le_gt_dec start to_block) as [Hle|Hgt].
    + rewrite scan_loop_exhausted in Hrun by done. now inversion Hrun.
    + rewrite scan_loop_done in Hrun by lia. now inversion Hrun.
  - destruct (Z_le_gt_dec start to_block) as [Hle|Hgt].
    + assert (Hend : start <= chunk_end start max_range to_block <= to_block)
        by (unfold chunk_end; lia).
      destruct (get_logs env (tick i) start (chunk_end start max_range to_block))
        as [event_logs|x] eqn:Hget.
      * rewrite (scan_loop_fetched _ _ _ _ _ _ _ Hle Hget) in Hrun.
        apply IH in Hrun as (new & Htr & Hall).
        exists (new ++ fetched start (chunk_end start max_range to_block) event_logs)%list.
        split.
        -- rewrite Htr. unfold after. cbn [trace]. apply app_assoc.
        -- apply Forall_app. split.
           ++ eapply Forall_impl; [exact Hall|].
              intros ef. apply scan_effect_weaken. lia.
           ++ destruct event_logs; repeat constructor; simpl; lia.
      * rewrite (scan_loop_refused _ _ _ _ _ _ _ Hle Hget) in Hrun.
        apply IH in Hrun as (new & Htr & Hall).
        exists (new ++ refused start (chunk_end start max_range to_block) x)%list.
        split.
        -- rewrite Htr. unfold after. cbn [trace]. apply app_assoc.
        -- apply Forall_app. split; [exact Hall|].
           repeat constructor; simpl; lia.
    + rewrite scan_loop_done in Hrun by lia. inversion Hrun; subst.
      exists []. split; [reflexivity | constructor].
Qed.

Lemma scan_blocks_effects fuel name from_block to_block max_range i r i' :
  0 < max_range ->
  scan_blocks env fuel name from_block to_block max_range i = (r, i') ->
  exists new, trace i' = (new ++ trace i)%list
              /\ Forall (scan_effect from_block to_block) new.
Proof.
  intros Hmax. unfold scan_blocks. destruct (from_block >? to_block).
  - intros Hrun. inversion Hrun; subst. exists []. split; [reflexivity|constructor].
  - unfold bind, log, emit. intros Hrun.
    apply scan_loop_effects in Hrun as (new & Htr & Hall); [|done].
    exists (new ++ [ELog INFO (MsgScanning name from_block to_block)])%list.
    split.
    + rewrite Htr. cbn [trace]. now rewrite <- app_assoc.
    + apply Forall_app. split; [exact Hall | repeat constructor].
Qed.

Lemma scan_loop_heights fuel to_block max_range start all_events i evs i' lo :
  honours_range env ->
  0 < max_range ->
  lo <= start ->
  Forall (fun ev => lo <= blockNumber ev <= to_block) all_events ->
  scan_loop env fuel to_block max_range start all_events i = (Ret evs, i') ->
  Forall (fun ev => lo <= blockNumber ev <= to_block) evs.
Proof.
  intros Hnode Hmax. revert start all_events i.
  induction fuel as [|fuel IH]; intros start all_events i Hlo Hall Hrun.
  - destruct (Z_le_gt_dec start to_block) as [Hle|Hgt].
    + rewrite scan_loop_exhausted in Hrun by done. discriminate.
    + rewrite scan_loop_done in Hrun by lia. now inversion Hrun; subst.
  - destruct (Z_le_gt_dec start to_block) as [Hle|Hgt].
    + assert (Hend : start <= chunk_end start max_range to_block <= to_block)
        by (unfold chunk_end; lia).
      destruct (get_logs env (tick i) start (chunk_end start max_range to_block))
        as [event_logs|x] eqn:Hget.
      * rewrite (scan_loop_fetched _ _ _ _ _ _ _ Hle Hget) in Hrun.
        apply IH in Hrun; [done | lia |].
        apply Forall_app. split; [done|].
        eapply Forall_impl; [exact (Hnode _ _ _ _ Hget)|].
        simpl. intros ev. lia.
      * rewrite (scan_loop_refused _ _ _ _ _ _ _ Hle Hget) in Hrun.
        apply IH in Hrun; done.
    + rewrite scan_loop_done in Hrun by lia. now inversion Hrun; subst.
Qed.

End Scanner.

(** ** Handling one event *)

Section Relayer.

Variable env : Env.

Lemma grows_refl i : grows i i.
Proof. exists []. split; [reflexivity | constructor]. Qed.

Lemma grows_trans i1 i2 i3 : grows i1 i2 -> grows i2 i3 -> grows i1 i3.
Proof.
  intros (new1 & Ht & Hf) (new2 & Ht' & Hf').
  exists (new2 ++ new1)%list. split.
  - rewrite Ht', Ht. apply app_assoc.
  - apply Forall_app. now split.
Qed.

Lemma steady_refl w : steady w w.
Proof. unfold steady. repeat split; try done. apply grows_refl. Qed.

Lemma steady_trans w1 w2 w3 : steady w1 w2 -> steady w2 w3 -> steady w1 w3.
Proof.
  intros (Ha & Hb & Hm & Hn & Hg) (Ha' & Hb' & Hm' & Hn' & Hg').
  unfold steady. repeat split; try congruence.
  - set_solver.
  - eapply grows_trans; eauto.
Qed.

Ltac grown :=
  match goal with
  | |- grows _ _ =>
      unfold grows; cbn [trace io];
      first [ (exists []; split; [reflexivity | repeat constructor])
            | (eexists [_]; split; [reflexivity | repeat constructor])
            | (eexists [_; _]; split; [reflexivity | repeat constructor])
            | (eexists [_; _; _]; split; [reflexivity | repeat constructor])
            | (eexists [_; _; _; _]; split; [reflexivity | repeat constructor])
            | (eexists [_; _; _; _; _]; split; [reflexivity | repeat constructor])
            | (eexists [_; _; _; _; _; _]; split; [reflexivity | repeat constructor])
            | (eexists [_; _; _; _; _; _; _]; split; [reflexivity | repeat constructor])
            | (eexists [_; _; _; _; _; _; _; _]; split; [reflexivity | repeat constructor]) ]
  end.

(** The three ways the [try] body of [process_event] can end: it returns,
    with the nonce in [processed_nonces]; or it raises, with the relayer
    untouched and the nonce, if it could be read, not in the set. *)
Lemma process_event_body_cases event w :
  match process_event_body env event w with
  | (Ret _, w') =>
      steady w w' /\ exists a, args event = Some a
                               /\ nonce a ∈ processed_nonces (self w')
  | (Raise _, w') =>
      self w' = self w
      /\ grows (io w) (io w')
      /\ forall a, args event = Some a -> nonce a ∉ processed_nonces (self w')
  | (OutOfFuel, _) => False
  end.
Proof.
  unfold process_event_body, subscript_args, bind, raise, ret, get_self, lift,
    call, log, emit, add_processed_nonce.
  destruct (args event) as [a|] eqn:Hargs; simpl.
  2:{ repeat split; [grown | discriminate]. }
  destruct (decide (nonce a ∈ processed_nonces (self w))) as [Hin|Hnin]; simpl.
  { split.
    - unfold steady; simpl. repeat split; try done. grown.
    - now exists a. }
  destruct (mintTokens env _ _); simpl.
  2:{ repeat split; [grown | congruence]. }
  destruct (get_transaction_count env _ _); simpl.
  2:{ repeat split; [grown | congruence]. }
  destruct (gas_price env _); simpl.
  2:{ repeat split; [grown | congruence]. }
  destruct (build_transaction env _ _ _); simpl.
  2:{ repeat split; [grown | congruence]. }
  destruct (sign_transaction env _ _); simpl.
  2:{ repeat split; [grown | congruence]. }
  split.
  - unfold steady; simpl. repeat split; try done.
    + set_solver.
    + grown.
  - exists a. split; [done | set_solver].
Qed.

Lemma process_event_Raise event w e w1 :
  process_event_body env event w = (Raise e, w1) ->
  process_event env event w = (Ret tt, failure_logged event e w1).
Proof.
  intros Hbody. unfold process_event.
  rewrite (try_except_Raise _ _ _ _ _ Hbody). reflexivity.
Qed.

Lemma process_event_Ret event w u w1 :
  process_event_body env event w = (Ret u, w1) ->
  process_event env event w = (Ret tt, w1).
Proof.
  intros Hbody. unfold process_event.
  rewrite (try_except_Ret _ _ _ _ _ Hbody). now destruct u.
Qed.

Lemma settled_later i0 w w' event :
  steady w w' -> settled i0 w event -> settled i0 w' event.
Proof.
  intros (_ & _ & _ & Hsub & new' & Htr' & _) [(a & Ha & Hin) | (e & new & Htr & Hin)].
  - left. exists a. split; [done|]. set_solver.
  - right. exists e, (new' ++ new)%list. split.
    + rewrite Htr', Htr. apply app_assoc.
    + apply elem_of_app. now right.
Qed.

Lemma settled_earlier i0 i1 w event :
  (exists pre, trace i1 = (pre ++ trace i0)%list) ->
  settled i1 w event -> settled i0 w event.
Proof.
  intros (pre & Hpre) [Hrec | (e & new & Htr & Hin)].
  - now left.
  - right. exists e, (new ++ pre)%list. split.
    + rewrite Htr, Hpre. apply app_assoc.
    + apply elem_of_app. now left.
Qed.

Lemma process_event_returns event w :
  exists w', process_event env event w = (Ret tt, w')
             /\ steady w w' /\ settled (io w) w' event.
Proof.
  pose proof (process_event_body_cases event w) as Hcases.
  destruct (process_event_body env event w) as [[u|e|] w1] eqn:Hbody.
  - destruct Hcases as (Hst & a & Ha & Hin).
    exists w1. split; [eapply process_event_Ret; eauto|].
    split; [done|]. left. now exists a.
  - destruct Hcases as (Hself & Hgrow & _).
    exists (failure_logged event e w1).
    split; [now apply process_event_Raise|]. split.
    + unfold steady, failure_logged; simpl. rewrite Hself.
      repeat split; try done.
      eapply grows_trans; [exact Hgrow|]. grown.
    + right. destruct Hgrow as (new & Htr & _).
      exists e, (ELog ERROR (MsgProcessFailed event e) :: new).
      split; [|apply list_elem_of_here].
      unfold failure_logged; simpl. now rewrite Htr.
  - contradiction.
Qed.

(** The [for event in events] loop of [run] reaches every event and always
    runs to its end. *)
Lemma for_each_process_event events w :
  exists w', for_each events (process_event env) w = (Ret tt, w')
             /\ steady w w' /\ Forall (settled (io w) w') events.
Proof.
  revert w. induction events as [|event rest IH]; intros w.
  - exists w. split; [reflexivity|]. split; [apply steady_refl | constructor].
  - destruct (process_event_returns event w) as (w1 & Hrun & Hst & Hset).
    destruct (IH w1) as (w2 & Hrest & Hst' & Hall).
    exists w2. split; [|split].
    + simpl. now rewrite (bind_Ret _ _ _ _ _ Hrun).
    + eapply steady_trans; eauto.
    + constructor; [eapply settled_later; eauto|].
      eapply Forall_impl; [exact Hall|]. intros ev.
      apply settled_earlier.
      destruct Hst as (_ & _ & _ & _ & new & Htr & _). now exists new.
Qed.

End Relayer.

(** ** The ordering step *)

Lemma key_leb_le k1 k2 : key_leb k1 k2 = true <-> key_le k1 k2.
Proof.
  unfold key_leb, key_le.
  rewrite orb_true_iff, andb_true_iff, Z.ltb_lt, Z.eqb_eq, Z.leb_le. tauto.
Qed.

Lemma key_le_total k1 k2 : key_le k1 k2 \/ key_le k2 k1.
Proof. unfold key_le. lia. Qed.

Lemma key_le_trans k1 k2 k3 : key_le k1 k2 -> key_le k2 k3 -> key_le k1 k3.
Proof. unfold key_le. lia. Qed.


Lemma insert_event_Permutation x l : insert_event x l ≡ₚ x :: l.
Proof.
  induction l as [|y l IH]; simpl; [done|].
  destruct (key_leb (sort_key x) (sort_key y)); [done|].
  rewrite IH. apply Permutation_swap.
Qed.

Lemma sort_events_Permutation l : sort_events l ≡ₚ l.
Proof.
  induction l as [|x l IH]; simpl; [done|].
  unfold sort_events in *. simpl.
  rewrite insert_event_Permutation. now rewrite IH.
Qed.

Lemma insert_event_sorted x l :
  StronglySorted event_le l -> StronglySorted event_le (insert_event x l).
Proof.
  induction 1 as [|y l Hsorted IH Hall]; simpl.
  - repeat constructor.
  - destruct (key_leb (sort_key x) (sort_key y)) eqn:Hcmp.
    + apply key_leb_le in Hcmp. constructor.
      * now constructor.
      * constructor; [done|].
        eapply Forall_impl; [exact Hall|]. intros z Hz.
        eapply key_le_trans; eauto.
    + assert (Hyx : event_le y x).
      { destruct (key_le_total (sort_key x) (sort_key y)) as [H|H]; [|done].
        apply key_leb_le in H. congruence. }
      constructor; [done|].
      rewrite insert_event_Permutation. now constructor.
Qed.

Lemma sort_events_sorted l : StronglySorted event_le (sort_events l).
Proof.
  induction l as [|x l IH]; [constructor|].
  unfold sort_events in *. simpl. now apply insert_event_sorted.
Qed.


(** ** One cycle of the relayer *)

Section Cycle.

Variable env : Env.

Lemma run_cycle_body_head_raises fuel poll w e :
  block_number env (tick (io w)) = Raises e ->
  run_cycle_body env fuel poll w = (Raise e, head_read w).
Proof.
  intros Hhead.
  unfold run_cycle_body, run_cycle_body_with, bind, lift, get_latest_block, call. now rewrite Hhead.
Qed.

Lemma run_cycle_body_no_window fuel poll w H :
  block_number env (tick (io w)) = Returns H ->
  window_top H w <= last_processed_block (self w) ->
  run_cycle_body env fuel poll w
  = (Ret tt, with_io w (after 1 [ESleep poll; ELog INFO (MsgNoNewBlocks H);
                                 EBlockNumber] (io w))).
Proof.
  intros Hhead Hle. unfold window_top in Hle.
  unfold run_cycle_body, run_cycle_body_with, bind, lift, get_latest_block, call, get_self.
  rewrite Hhead. simpl.
  destruct (H - reorg_safety_margin (self w) >? last_processed_block (self w))
    eqn:Hcmp; [apply Z.gtb_lt in Hcmp; lia|].
  reflexivity.
Qed.

Lemma run_cycle_body_stuck fuel poll w H i1 :
  block_number env (tick (io w)) = Returns H ->
  last_processed_block (self w) < window_top H w ->
  cycle_scan env fuel H w = (OutOfFuel, i1) ->
  run_cycle_body env fuel poll w = (OutOfFuel, with_io w i1).
Proof.
  intros Hhead Hlt Hscan. unfold cycle_scan, window_top, head_read, with_io, after in *.
  unfold run_cycle_body, run_cycle_body_with, bind, lift, get_latest_block, call, get_self.
  rewrite Hhead. simpl.
  destruct (H - reorg_safety_margin (self w) >? last_processed_block (self w))
    eqn:Hcmp; [|rewrite Z.gtb_ltb in Hcmp; apply Z.ltb_ge in Hcmp; lia].
  simpl in *. now rewrite Hscan.
Qed.

Lemma run_cycle_body_scanned fuel poll w H evs i1 w2 :
  block_number env (tick (io w)) = Returns H ->
  last_processed_block (self w) < window_top H w ->
  cycle_scan env fuel H w = (Ret evs, i1) ->
  for_each (sort_events evs) (process_event env) (with_io w i1) = (Ret tt, w2) ->
  run_cycle_body env fuel poll w = (Ret tt, advanced (window_top H w) poll w2).
Proof.
  intros Hhead Hlt Hscan Hloop.
  unfold cycle_scan, window_top, head_read, with_io, after in *.
  unfold run_cycle_body, run_cycle_body_with, bind, lift, get_latest_block, call, get_self.
  rewrite Hhead. simpl.
  destruct (H - reorg_safety_margin (self w) >? last_processed_block (self w))
    eqn:Hcmp; [|rewrite Z.gtb_ltb in Hcmp; apply Z.ltb_ge in Hcmp; lia].
  simpl in *. rewrite Hscan.
  assert (Hfor : match evs with
                 | [] => ret tt
                 | _ :: _ => for_each (sort_events evs) (process_event env)
                 end {| self := self w; io := i1 |} = (Ret tt, w2)).
  { destruct evs; [exact Hloop | exact Hloop]. }
  rewrite Hfor. reflexivity.
Qed.

Lemma run_cycle_outcome fuel poll w :
  exists r w', run_cycle env fuel poll w = (r, w') /\ cycle_outcome env fuel poll w r w'.
Proof.
  destruct (block_number env (tick (io w))) as [H|e] eqn:Hhead.
  - destruct (Z_le_gt_dec (window_top H w) (last_processed_block (self w)))
      as [Hle|Hgt].
    + eexists _, _. split; [|eapply cycle_no_window; eauto].
      unfold run_cycle. eapply try_except_Ret.
      now apply run_cycle_body_no_window.
    + destruct (cycle_scan env fuel H w) as [[evs|e|] i1] eqn:Hscan.
      * destruct (for_each_process_event env (sort_events evs) (with_io w i1))
          as (w2 & Hloop & Hst & Hall).
        eexists _, _. split; [|eapply cycle_relayed; eauto; lia].
        unfold run_cycle. eapply try_except_Ret.
        eapply run_cycle_body_scanned; eauto. lia.
      * exfalso. eapply scan_blocks_no_raise. exact Hscan.
      * eexists _, _. split; [|eapply cycle_stuck; eauto; lia].
        unfold run_cycle, try_except.
        rewrite (run_cycle_body_stuck fuel poll w H i1); [done|done|lia|done].
  - eexists _, _. split; [|eapply cycle_head_raises; eauto].
    unfold run_cycle.
    rewrite (try_except_Raise _ _ _ _ _ (run_cycle_body_head_raises fuel poll w e Hhead)).
    unfold loop_handled. destruct (is_ConnectionError e); reflexivity.
Qed.

(** No exception leaves a cycle. *)
Lemma run_cycle_no_raise fuel poll w e w' :
  run_cycle env fuel poll w <> (Raise e, w').
Proof.
  destruct (run_cycle_outcome fuel poll w) as (r & w1 & Hrun & Hout).
  rewrite Hrun. destruct Hout; discriminate.
Qed.

(** [while True] has no exit: whatever the bound, the model of the loop
    ends because the bound was reached. *)
Lemma run_loop_no_exit cycles fuel poll w :
  (run_loop env cycles fuel poll w).1 = OutOfFuel.
Proof.
  revert w. induction cycles as [|cycles IH]; intros w; [reflexivity|].
  simpl. destruct (run_cycle_outcome fuel poll w) as (r & w1 & Hrun & Hout).
  unfold bind. rewrite Hrun.
  destruct Hout; try apply IH. reflexivity.
Qed.

End Cycle.

(** * The claims *)

(** ** The scanner *)

(** C9: for all window bounds [a > b], [scan_blocks] returns the empty list
    and never an error: it does so at once, whatever the iteration bound and
    the chunk size, without a log line and without a query. *)
Theorem scan_blocks_empty_window env fuel name a b max_range i :
  a > b ->
  scan_blocks env fuel name a b max_range i = (Ret [], i).
Proof.
  intros Hgt. unfold scan_blocks.
  destruct (a >? b) eqn:Hcmp; [reflexivity|].
  rewrite Z.gtb_ltb in Hcmp. apply Z.ltb_ge in Hcmp. lia.
Qed.

Lemma scan_blocks_empty_window_witness :
  5 > 3 /\
  scan_blocks Scenario.malformed 0 "TokensLocked" 5 3 1000 io0 = (Ret [], io0).
Proof.
  split; [lia|]. apply scan_blocks_empty_window. lia.
Defined.

(** ** Handling one event *)

(** C8: for an event whose nonce is already in [processed_nonces],
    [process_event] returns after one log line at level WARNING: the relayer
    is unchanged and no external call was made (the call counter did not
    move), so nothing was built, signed or submitted for the destination. *)
Theorem process_event_skips_processed env event a w :
  args event = Some a ->
  nonce a ∈ processed_nonces (self w) ->
  process_event env event w
  = (Ret tt, with_io w (after 0 [ELog WARNING (MsgSkipNonce (nonce a))] (io w))).
Proof.
  intros Hargs Hin.
  unfold process_event, try_except, process_event_body, subscript_args, bind,
    get_self, ret, lift, log, emit.
  rewrite Hargs. simpl.
  destruct (decide (nonce a ∈ processed_nonces (self w))) as [_|Hnin]; [|done].
  reflexivity.
Qed.

Lemma process_event_skips_processed_witness :
  process_event Scenario.quiet (Scenario.transfer 93 0 7)
    (Scenario.world_at 90 {[ 7 ]})
  = (Ret tt,
     {| self := Scenario.relayer_at 90 {[ 7 ]};
        io := {| tick := 0; trace := [ELog WARNING (MsgSkipNonce 7)] |} |}).
Proof.
  apply (process_event_skips_processed Scenario.quiet (Scenario.transfer 93 0 7)
           {| nonce := 7; recipient := "0xRecipient"; amount := 10 |}
           (Scenario.world_at 90 {[ 7 ]})).
  - reflexivity.
  - simpl. apply elem_of_singleton. reflexivity.
Defined.

(** C10: [process_event] never hands an exception to its caller.  For every
    event and every world it returns normally, so the loop over the events
    goes on with the next one; and when the body of its [try] raised, the
    handler logged the failure at level ERROR, the relayer is as it was
    before the call, and the nonce of the event is not in
    [processed_nonces]. *)
Theorem process_event_never_raises env event w :
  exists w',
    process_event env event w = (Ret tt, w')
    /\ (forall rest,
          for_each (event :: rest) (process_event env) w
          = for_each rest (process_event env) w')
    /\ (forall e w1,
          process_event_body env event w = (Raise e, w1) ->
          w' = failure_logged event e w1
          /\ self w' = self w
          /\ forall a, args event = Some a ->
                       nonce a ∉ processed_nonces (self w')).
Proof.
  destruct (process_event_returns env event w) as (w' & Hrun & _ & _).
  exists w'. split; [exact Hrun|]. split.
  - intros rest. simpl. now rewrite (bind_Ret _ _ _ _ _ Hrun).
  - intros e w1 Hbody.
    pose proof (process_event_body_cases env event w) as Hcases.
    rewrite Hbody in Hcases. destruct Hcases as (Hself & _ & Hnot).
    rewrite (process_event_Raise env _ _ _ _ Hbody) in Hrun.
    inversion Hrun; subst w'. simpl. repeat split; done.
Qed.

Lemma process_event_never_raises_witness :
  exists w',
    process_event Scenario.unconfirmed (Scenario.transfer 93 0 7)
      (Scenario.world_at 90 ∅) = (Ret tt, w')
    /\ self w' = Scenario.relayer_at 90 ∅
    /\ 7 ∉ processed_nonces (self w').
Proof.
  destruct (process_event_never_raises Scenario.unconfirmed
              (Scenario.transfer 93 0 7) (Scenario.world_at 90 ∅))
    as (w' & Hrun & _ & Hfail).
  exists w'. split; [exact Hrun|].
  destruct (Hfail _ _ eq_refl) as (_ & Hself & Hnot).
  split; [exact Hself|]. exact (Hnot _ eq_refl).
Defined.

(** ** The ordering step *)




(** ** The scan window *)

Ltac not_listed H :=
  repeat (apply elem_of_cons in H as [H|H]; [discriminate H|]);
  apply elem_of_nil in H; contradiction.

(** Every query to the source chain that a cycle makes lies inside
    [last_processed_block + 1 .. head - margin]. *)
Lemma run_cycle_queries env fuel poll w r w' :
  run_cycle env fuel poll w = (r, w') ->
  exists new,
    trace (io w') = (new ++ trace (io w))%list
    /\ forall f t, EGetLogs f t ∈ new ->
         exists H, block_number env (tick (io w)) = Returns H
                   /\ last_processed_block (self w) + 1 <= f
                   /\ f <= t
                   /\ t <= window_top H w.
Proof.
  intros Hrun.
  destruct (run_cycle_outcome env fuel poll w) as (r1 & w1 & Hrun1 & Hout).
  rewrite Hrun in Hrun1. inversion Hrun1; subst r1 w1. clear Hrun1.
  destruct Hout as [e Hhead | H Hhead Hle | H i1 Hhead Hlt Hscan
                   | H evs i1 w2 Hhead Hlt Hscan Hloop Hst Hall].
  - exists (if is_ConnectionError e
            then [ESleep 60; ELog ERROR (MsgLoopConnectionError e); EBlockNumber]
            else [ESleep 30; ELog CRITICAL (MsgLoopUnexpected e); EBlockNumber]).
    split.
    + unfold loop_handled. simpl. now destruct (is_ConnectionError e).
    + intros f t Hin. destruct (is_ConnectionError e); not_listed Hin.
  - eexists. split; [reflexivity|]. intros f t Hin. not_listed Hin.
  - apply scan_blocks_effects in Hscan as (new & Htr & Heff); [|lia].
    exists (new ++ [EBlockNumber])%list. split.
    + simpl. rewrite Htr. simpl. now rewrite <- app_assoc.
    + intros f t Hin. apply elem_of_app in Hin as [Hin|Hin]; [|not_listed Hin].
      rewrite Forall_forall in Heff. apply Heff in Hin. simpl in Hin.
      exists H. split; [done|]. lia.
  - apply scan_blocks_effects in Hscan as (new & Htr & Heff); [|lia].
    destruct Hst as (_ & _ & _ & _ & new2 & Htr2 & Heff2).
    exists (ESleep poll :: new2 ++ new ++ [EBlockNumber])%list. split.
    + simpl. rewrite Htr2. simpl. rewrite Htr. simpl.
      now rewrite <- !app_assoc.
    + intros f t Hin.
      apply elem_of_cons in Hin as [Hin|Hin]; [discriminate|].
      apply elem_of_app in Hin as [Hin|Hin].
      { rewrite Forall_forall in Heff2. apply Heff2 in Hin. contradiction. }
      apply elem_of_app in Hin as [Hin|Hin]; [|not_listed Hin].
      rewrite Forall_forall in Heff. apply Heff in Hin. simpl in Hin.
      exists H. split; [done|]. lia.
Qed.

(** The events a cycle scans lie in the window when the node answers a query
    with events of the queried range only. *)
Lemma cycle_scan_heights env fuel H w evs i1 :
  honours_range env ->
  cycle_scan env fuel H w = (Ret evs, i1) ->
  Forall (fun ev => last_processed_block (self w) + 1 <= blockNumber ev
                    /\ blockNumber ev <= window_top H w) evs.
Proof.
  intros Hnode. unfold cycle_scan, scan_blocks.
  destruct (last_processed_block (self w) + 1 >? window_top H w).
  - intros Hscan. inversion Hscan; subst. constructor.
  - unfold bind, log, emit. intros Hscan.
    eapply Forall_impl.
    + eapply (scan_loop_heights env fuel (window_top H w) 1000
                (last_processed_block (self w) + 1) [] _ evs i1
                (last_processed_block (self w) + 1) Hnode);
        [lia | lia | constructor | exact Hscan].
    + intros ev Hev. exact Hev.
Qed.

(** C6: for a cycle with head [H] and margin [M], every query to the source
    chain lies within [last_processed_block + 1 .. H - M], and the events
    the cycle scans have heights in that window when the node answers with
    events of the queried range; so no event above [H - M] is included.
    With head 100, margin 5 and watermark 90 the only query is for 91..95,
    and when it finds nothing the cycle ends with watermark 95 after two
    external calls, the head and that query: nothing went to the
    destination chain. *)
Theorem scan_window_respects_margin :
  (forall env fuel poll w H r w',
     block_number env (tick (io w)) = Returns H ->
     run_cycle env fuel poll w = (r, w') ->
     exists new,
       trace (io w') = (new ++ trace (io w))%list
       /\ forall f t, EGetLogs f t ∈ new ->
            last_processed_block (self w) + 1 <= f /\ f <= t
            /\ t <= H - reorg_safety_margin (self w))
  /\ (forall env fuel w H evs i1,
        honours_range env ->
        cycle_scan env fuel H w = (Ret evs, i1) ->
        Forall (fun ev => last_processed_block (self w) + 1 <= blockNumber ev
                          /\ blockNumber ev <= H - reorg_safety_margin (self w))
          evs)
  /\ (forall env fuel poll w,
        block_number env (tick (io w)) = Returns 100 ->
        reorg_safety_margin (self w) = 5 ->
        last_processed_block (self w) = 90 ->
        get_logs env (S (tick (io w))) 91 95 = Returns [] ->
        run_cycle env (S fuel) poll w
        = (Ret tt,
           advanced 95 poll
             (with_io w
                (after 2 [EGetLogs 91 95;
                          ELog INFO (MsgScanning "TokensLocked" 91 95);
                          EBlockNumber] (io w))))).
Proof.
  split; [|split].
  - intros env fuel poll w H r w' Hhead Hrun.
    apply run_cycle_queries in Hrun as (new & Htr & Hq).
    exists new. split; [exact Htr|]. intros f t Hin.
    destruct (Hq f t Hin) as (H' & Hhead' & Hb).
    rewrite Hhead in Hhead'. inversion Hhead'; subst H'.
    unfold window_top in Hb. lia.
  - intros env fuel w H evs i1. apply cycle_scan_heights.
  - intros env fuel poll w Hhead Hmargin Hlast Hget.
    assert (Htop : window_top 100 w = 95) by (unfold window_top; lia).
    rewrite <- Htop at 1.
    unfold run_cycle. eapply try_except_Ret.
    eapply run_cycle_body_scanned with (evs := []); eauto; [lia|].
    unfold cycle_scan. rewrite Htop, Hlast.
    change (90 + 1) with 91. unfold scan_blocks.
    change (91 >? 95) with false.
    unfold bind, log, emit, head_read, with_io, after. cbn [io tick trace app Nat.add].
    rewrite (scan_loop_fetched env fuel 95 1000 91 [] _ []); [|lia|exact Hget].
    rewrite scan_loop_done by (unfold chunk_end; lia).
    reflexivity.
Qed.

Lemma scan_window_respects_margin_witness :
  run_cycle Scenario.quiet 1 15 (Scenario.world_at 90 ∅)
  = (Ret tt,
     {| self := Scenario.relayer_at 95 ∅;
        io := {| tick := 2;
                 trace := [ESleep 15; EGetLogs 91 95;
                           ELog INFO (MsgScanning "TokensLocked" 91 95);
                           EBlockNumber] |} |}).
Proof.
  apply (proj2 (proj2 scan_window_respects_margin)
           Scenario.quiet 0%nat 15 (Scenario.world_at 90 ∅));
    reflexivity.
Defined.

(** ** The watermark *)

(** A cycle in which the handling of the event with nonce 7 fails: the
    other event is relayed and the watermark is set to 95. *)
Lemma unconfirmed_first_cycle :
  run_cycle Scenario.unconfirmed 3 15 (Scenario.world_at 90 ∅)
  = (Ret tt,
     {| self := Scenario.relayer_at 95 {[ 8 ]};
        io := {| tick := 11; trace := Scenario.first_cycle_trace |} |}).
Proof. vm_compute. reflexivity. Qed.

(** The cycle after it, with the head at 110, asks for 96..105 only. *)
Lemma unconfirmed_second_cycle :
  run_cycle Scenario.unconfirmed 3 15
    {| self := Scenario.relayer_at 95 {[ 8 ]};
       io := {| tick := 11; trace := Scenario.first_cycle_trace |} |}
  = (Ret tt,
     {| self := Scenario.relayer_at 105 {[ 8 ]};
        io := {| tick := 13;
                 trace := [ESleep 15; EGetLogs 96 105;
                           ELog INFO (MsgScanning "TokensLocked" 96 105);
                           EBlockNumber] ++ Scenario.first_cycle_trace |} |}).
Proof. vm_compute. reflexivity. Qed.

Lemma unconfirmed_first_scan :
  cycle_scan Scenario.unconfirmed 3 100 (Scenario.world_at 90 ∅)
  = (Ret [Scenario.transfer 93 1 8; Scenario.transfer 93 0 7],
     {| tick := 2;
        trace := [ELog INFO (MsgFound 2 91 95); EGetLogs 91 95;
                  ELog INFO (MsgScanning "TokensLocked" 91 95); EBlockNumber] |}).
Proof. vm_compute. reflexivity. Qed.






(** ** An event whose handling fails *)

(** C2, as the script has it.  The script never learns an outcome of the
    destination action (the submission is simulated); what it can see is an
    exception while it prepares the action.  Then (1) [process_event]
    returns normally with the relayer unchanged, so the nonce is not added;
    (2) the cycle is not aborted: once the scan has returned, the loop walks
    through all the events and the watermark is set to [head - margin],
    whatever happened to each of them; (3) every query of a cycle starts
    above the watermark the cycle began with, so after (2) no later cycle
    asks again for the block of the failed event. *)
Theorem failed_event_is_passed_over :
  (forall env event w e w1,
     process_event_body env event w = (Raise e, w1) ->
     process_event env event w = (Ret tt, failure_logged event e w1)
     /\ self w1 = self w)
  /\ (forall env fuel poll w H evs i1,
        block_number env (tick (io w)) = Returns H ->
        last_processed_block (self w) < H - reorg_safety_margin (self w) ->
        cycle_scan env fuel H w = (Ret evs, i1) ->
        exists w2,
          for_each (sort_events evs) (process_event env) (with_io w i1)
          = (Ret tt, w2)
          /\ run_cycle env fuel poll w
             = (Ret tt, advanced (H - reorg_safety_margin (self w)) poll w2))
  /\ (forall env fuel poll w r w',
        run_cycle env fuel poll w = (r, w') ->
        exists new,
          trace (io w') = (new ++ trace (io w))%list
          /\ forall f t, EGetLogs f t ∈ new -> last_processed_block (self w) < f).
Proof.
  split; [|split].
  - intros env event w e w1 Hbody. split.
    + now apply process_event_Raise.
    + pose proof (process_event_body_cases env event w) as Hcases.
      rewrite Hbody in Hcases. tauto.
  - intros env fuel poll w H evs i1 Hhead Hlt Hscan.
    destruct (for_each_process_event env (sort_events evs) (with_io w i1))
      as (w2 & Hloop & _ & _).
    exists w2. split; [exact Hloop|].
    unfold run_cycle. eapply try_except_Ret.
    change (H - reorg_safety_margin (self w)) with (window_top H w).
    eapply run_cycle_body_scanned; eauto.
  - intros env fuel poll w r w' Hrun.
    apply run_cycle_queries in Hrun as (new & Htr & Hq).
    exists new. split; [exact Htr|]. intros f t Hin.
    destruct (Hq f t Hin) as (H & _ & Hb). lia.
Qed.

Lemma failed_event_is_passed_over_witness :
  (exists w1,
     process_event Scenario.unconfirmed (Scenario.transfer 93 0 7)
       (Scenario.world_at 90 ∅)
     = (Ret tt, failure_logged (Scenario.transfer 93 0 7) Scenario.not_confirmed w1)
     /\ self w1 = Scenario.relayer_at 90 ∅)
  /\ (exists w2,
        run_cycle Scenario.unconfirmed 3 15 (Scenario.world_at 90 ∅)
        = (Ret tt, advanced 95 15 w2)).
Proof.
  destruct failed_event_is_passed_over as (Hone & Hcycle & _). split.
  - eexists. apply (Hone Scenario.unconfirmed (Scenario.transfer 93 0 7)
                      (Scenario.world_at 90 ∅) Scenario.not_confirmed).
    vm_compute. reflexivity.
  - destruct (Hcycle Scenario.unconfirmed 3%nat 15 (Scenario.world_at 90 ∅) 100
                _ _ eq_refl ltac:(simpl; lia) unconfirmed_first_scan)
      as (w2 & _ & Hrun).
    exists w2. exact Hrun.
Defined.

(** C2 as stated fails on Scenario C.  The handling of the event of block 93
    with nonce 7 fails, and the cycle still ends with the watermark at 95,
    past that event; the next cycle, with the head at 110, asks for 96..105
    only and prepares no action: the event is neither scanned nor submitted
    again. *)
Lemma unconfirmed_holds_watermark_counterexample :
  ~ claimed_unconfirmed_holds_watermark Scenario.unconfirmed 3 15
      (Scenario.world_at 90 ∅)
  /\ exists w1 w2,
       run_cycle Scenario.unconfirmed 3 15 (Scenario.world_at 90 ∅) = (Ret tt, w1)
       /\ run_cycle Scenario.unconfirmed 3 15 w1 = (Ret tt, w2)
       /\ (7 ∉ processed_nonces (self w2))
       /\ trace (io w2)
          = ([ESleep 15; EGetLogs 96 105;
              ELog INFO (MsgScanning "TokensLocked" 96 105); EBlockNumber]
             ++ trace (io w1))%list.
Proof.
  split.
  - intros Hclaim.
    specialize (Hclaim _ _ (Scenario.transfer 93 0 7) Scenario.not_confirmed
                  unconfirmed_first_cycle).
    simpl in Hclaim.
    assert (Hlt : 95 < 93); [|lia].
    apply Hclaim.
    + unfold Scenario.first_cycle_trace.
      do 9 apply list_elem_of_further. apply list_elem_of_here.
    + apply not_elem_of_nil.
  - eexists _, _. split; [exact unconfirmed_first_cycle|].
    split; [exact unconfirmed_second_cycle|]. split; [|reflexivity].
    simpl. intros Hin. apply elem_of_singleton in Hin. discriminate.
Qed.

(** ** Failures while scanning *)

Lemma scan_loop_never_gives_up env fuel to_block max_range start all_events i :
  (forall t a b, exists e, get_logs env t a b = Raises e) ->
  start <= to_block ->
  (scan_loop env fuel to_block max_range start all_events i).1 = OutOfFuel
  /\ tick (scan_loop env fuel to_block max_range start all_events i).2
     = (fuel + tick i)%nat.
Proof.
  intros Hnode Hle. revert i.
  induction fuel as [|fuel IH]; intros i.
  - rewrite scan_loop_exhausted by done. split; reflexivity.
  - destruct (Hnode (tick i) start (chunk_end start max_range to_block))
      as (e & Hget).
    rewrite (scan_loop_refused env fuel _ _ _ _ _ e Hle Hget).
    destruct (IH (after 1 (refused start (chunk_end start max_range to_block) e) i))
      as (Hres & Htick).
    split; [exact Hres|]. rewrite Htick. simpl. lia.
Qed.

(** C3, as the script has it: the scanner does not classify failures.
    Whatever exception a query raises, the iteration logs it at level ERROR,
    sleeps 10 seconds and goes on with the same start and the same events
    collected so far, that is with the same sub-range; no exception ever
    leaves [scan_blocks]; and against a node that fails every query the
    scanner does not give up: whatever the iteration bound, the model stops
    on the bound, one query per iteration. *)
Theorem scan_retries_every_failure :
  (forall env fuel to_block max_range start all_events i e,
     start <= to_block ->
     get_logs env (tick i) start (chunk_end start max_range to_block) = Raises e ->
     scan_loop env (S fuel) to_block max_range start all_events i
     = scan_loop env fuel to_block max_range start all_events
         (after 1 [ESleep 10;
                   ELog ERROR
                     (MsgFetchError start
                        (chunk_end start max_range to_block) e);
                   EGetLogs start (chunk_end start max_range to_block)] i))
  /\ (forall env fuel name from_block to_block max_range i e i',
        scan_blocks env fuel name from_block to_block max_range i <> (Raise e, i'))
  /\ (forall env fuel to_block max_range start all_events i,
        (forall t a b, exists e, get_logs env t a b = Raises e) ->
        start <= to_block ->
        (scan_loop env fuel to_block max_range start all_events i).1 = OutOfFuel
        /\ tick (scan_loop env fuel to_block max_range start all_events i).2
           = (fuel + tick i)%nat).
Proof.
  split; [|split].
  - intros env fuel to_block max_range start all_events i e Hle Hget.
    now rewrite (scan_loop_refused env fuel _ _ _ _ _ e Hle Hget).
  - intros env fuel name from_block to_block max_range i e i'.
    apply scan_blocks_no_raise.
  - intros env fuel to_block max_range start all_events i.
    apply scan_loop_never_gives_up.
Qed.

Lemma scan_retries_every_failure_witness :
  scan_loop Scenario.malformed 1 95 1000 91 [] io0
  = scan_loop Scenario.malformed 0 95 1000 91 []
      {| tick := 1;
         trace := [ESleep 10;
                   ELog ERROR (MsgFetchError 91 95 (ValueError "malformed response"));
                   EGetLogs 91 95] |}
  /\ (scan_loop Scenario.malformed 7 95 1000 91 [] io0).1 = OutOfFuel.
Proof.
  destruct scan_retries_every_failure as (Hretry & _ & Hforever). split.
  - apply (Hretry Scenario.malformed 0%nat 95 1000 91 [] io0
             (ValueError "malformed response")); [lia | reflexivity].
  - apply (Hforever Scenario.malformed 7%nat 95 1000 91 [] io0); [|lia].
    intros t a b. eexists. reflexivity.
Defined.

(** C3 as stated fails: a node whose answers are malformed makes the
    scanner retry; the error is not handed to the caller. *)
Lemma fatal_propagates_counterexample :
  ~ claimed_fatal_propagates Scenario.malformed 3 "TokensLocked" 91 95 1000 io0.
Proof.
  intros Hclaim.
  destruct (Hclaim (ValueError "malformed response") eq_refl eq_refl)
    as (i' & Hrun).
  vm_compute in Hrun. discriminate Hrun.
Qed.

(** ** Errors in the main loop *)

Lemma run_cycle_head_raises env fuel poll w e :
  block_number env (tick (io w)) = Raises e ->
  run_cycle env fuel poll w = (Ret tt, loop_handled e (head_read w)).
Proof.
  intros Hhead. unfold run_cycle.
  rewrite (try_except_Raise _ _ _ _ _
             (run_cycle_body_head_raises env fuel poll w e Hhead)).
  unfold loop_handled. destruct (is_ConnectionError e); reflexivity.
Qed.

(** C4, as the script has it: no error halts the main loop.  An exception
    that reaches the loop and is no [ConnectionError] is logged at level
    CRITICAL, the highest, followed by a sleep of 30 seconds; a
    [ConnectionError] is logged at level ERROR, followed by a sleep of 60
    seconds; either way the iteration ends normally and the loop starts the
    next cycle.  The loop has no exit at all: whatever the bound on the
    number of iterations, the model stops on the bound. *)
Theorem main_loop_retries_every_error :
  (forall env fuel poll w e,
     block_number env (tick (io w)) = Raises e ->
     is_ConnectionError e = false ->
     run_cycle env fuel poll w
     = (Ret tt,
        with_io w (after 1 [ESleep 30; ELog CRITICAL (MsgLoopUnexpected e);
                            EBlockNumber] (io w))))
  /\ (forall env fuel poll w e,
        block_number env (tick (io w)) = Raises e ->
        is_ConnectionError e = true ->
        run_cycle env fuel poll w
        = (Ret tt,
           with_io w (after 1 [ESleep 60; ELog ERROR (MsgLoopConnectionError e);
                               EBlockNumber] (io w))))
  /\ (forall env cycles fuel poll w e,
        block_number env (tick (io w)) = Raises e ->
        run_loop env (S cycles) fuel poll w
        = run_loop env cycles fuel poll (loop_handled e (head_read w)))
  /\ (forall env cycles fuel poll w,
        (run_loop env cycles fuel poll w).1 = OutOfFuel).
Proof.
  split; [|split; [|split]].
  - intros env fuel poll w e Hhead Hkind.
    rewrite (run_cycle_head_raises env fuel poll w e Hhead).
    unfold loop_handled. now rewrite Hkind.
  - intros env fuel poll w e Hhead Hkind.
    rewrite (run_cycle_head_raises env fuel poll w e Hhead).
    unfold loop_handled. now rewrite Hkind.
  - intros env cycles fuel poll w e Hhead. simpl.
    now rewrite (bind_Ret _ _ _ _ _ (run_cycle_head_raises env fuel poll w e Hhead)).
  - intros env cycles fuel poll w. apply run_loop_no_exit.
Qed.

Lemma main_loop_retries_every_error_witness :
  run_cycle Scenario.faulty_head 3 15 (Scenario.world_at 90 ∅)
  = (Ret tt,
     {| self := Scenario.relayer_at 90 ∅;
        io := {| tick := 1;
                 trace := [ESleep 30;
                           ELog CRITICAL
                             (MsgLoopUnexpected
                                (ValueError "invalid contract binding"));
                           EBlockNumber] |} |}).
Proof.
  apply (proj1 main_loop_retries_every_error Scenario.faulty_head 3%nat 15
           (Scenario.world_at 90 ∅) (ValueError "invalid contract binding"));
    reflexivity.
Defined.

(** C4 as stated fails: after an error that is no [ConnectionError] the
    loop goes on; the second iteration reads the head again, scans 91..95
    and moves the watermark. *)
Lemma fatal_halts_counterexample :
  ~ claimed_fatal_halts Scenario.faulty_head 2 3 15 (Scenario.world_at 90 ∅)
  /\ run_loop Scenario.faulty_head 2 3 15 (Scenario.world_at 90 ∅)
     = (OutOfFuel,
        {| self := Scenario.relayer_at 95 ∅;
           io := {| tick := 3;
                    trace := [ESleep 15; EGetLogs 91 95;
                              ELog INFO (MsgScanning "TokensLocked" 91 95);
                              EBlockNumber;
                              ESleep 30;
                              ELog CRITICAL
                                (MsgLoopUnexpected
                                   (ValueError "invalid contract binding"));
                              EBlockNumber] |} |}).
Proof.
  split.
  - intros Hclaim.
    apply (Hclaim (ValueError "invalid contract binding") eq_refl eq_refl).
    vm_compute. reflexivity.
  - vm_compute. reflexivity.
Qed.

(** ** Start-up *)

Lemma first_unset_None l :
  first_unset l = None <-> Forall (fun kv => falsy kv.2 = false) l.
Proof.
  induction l as [|[k v] l IH]; simpl.
  - split; [constructor | reflexivity].
  - destruct (falsy v) eqn:Hv.
    + split; [discriminate|]. intros Hall.
      inversion Hall as [|? ? Hk _]; subst. simpl in Hk. congruence.
    + rewrite IH. split.
      * intros Hall. now constructor.
      * intros Hall. now inversion Hall.
Qed.

Lemma first_unset_Some l var_name :
  first_unset l = Some var_name ->
  exists before value rest,
    l = (before ++ (var_name, value) :: rest)%list
    /\ falsy value = true
    /\ Forall (fun kv => falsy kv.2 = false) before.
Proof.
  induction l as [|[k v] l IH]; simpl; [discriminate|].
  destruct (falsy v) eqn:Hv.
  - intros Heq. inversion Heq; subst.
    exists [], v, l. repeat split; [done | constructor].
  - intros Hfirst. destruct (IH Hfirst) as (before & value & rest & -> & Hf & Hall).
    exists ((k, v) :: before), value, rest. repeat split; [done|].
    now constructor.
Qed.

Lemma first_unset_found l key value :
  (key, value) ∈ l -> falsy value = true ->
  exists var_name v, first_unset l = Some var_name
                     /\ (var_name, v) ∈ l /\ falsy v = true.
Proof.
  induction l as [|[k v] l IH]; intros Hin Hfalsy.
  - now apply elem_of_nil in Hin.
  - simpl. destruct (falsy v) eqn:Hv.
    + exists k, v. repeat split; [apply list_elem_of_here | done].
    + apply elem_of_cons in Hin as [Heq|Hin]; [congruence|].
      destruct (IH Hin Hfalsy) as (name & v' & Hfirst & Hin' & Hf).
      exists name, v'. repeat split; [done | | done].
      now apply list_elem_of_further.
Qed.

Lemma required_vars_getenv env key value :
  (key, value) ∈ required_vars env -> value = getenv env key.
Proof.
  unfold required_vars. intros Hin.
  repeat (apply elem_of_cons in Hin as [Heq|Hin]; [now inversion Heq|]).
  now apply elem_of_nil in Hin.
Qed.

Lemma required_vars_listed env key :
  key ∈ (required_vars env).*1 -> (key, getenv env key) ∈ required_vars env.
Proof.
  intros Hin. apply list_elem_of_fmap in Hin as ([k v] & -> & Hin).
  simpl. now rewrite <- (required_vars_getenv env k v Hin).
Qed.

(** C5, as the script has it: when [START_BLOCK] is unset or reads as an
    integer and one of the five required variables is absent (or empty),
    [main] writes one log line at level ERROR that names the first such
    variable (every variable listed before it in [required_vars] has a
    value) and returns: no component is initialised, and the interpreter
    ends with status 0.  The script has no call that sets an exit status. *)
Theorem missing_config_logs_and_returns env cycles fuel i key START_BLOCK :
  py_int env (default "0" (getenv env "START_BLOCK")) = Some START_BLOCK ->
  key ∈ (required_vars env).*1 ->
  falsy (getenv env key) = true ->
  exists var_name,
    var_name ∈ (required_vars env).*1
    /\ falsy (getenv env var_name) = true
    /\ main env cycles fuel i
       = (Ret tt, after 0 [ELog ERROR (MsgEnvNotSet var_name)] i)
    /\ exit_status (main env cycles fuel i).1 = Some 0
    /\ exists before value rest,
         required_vars env = (before ++ (var_name, value) :: rest)%list
         /\ Forall (fun kv => falsy kv.2 = false) before.
Proof.
  intros Hint Hkey Hfalsy.
  apply required_vars_listed in Hkey.
  destruct (first_unset_found _ _ _ Hkey Hfalsy) as (name & v & Hfirst & Hin & Hv).
  assert (Hmain : main env cycles fuel i
                  = (Ret tt, after 0 [ELog ERROR (MsgEnvNotSet name)] i)).
  { unfold main. rewrite Hint, Hfirst. reflexivity. }
  exists name. split; [|split; [|split; [|split]]].
  - apply list_elem_of_fmap. now exists (name, v).
  - now rewrite <- (required_vars_getenv env name v Hin).
  - exact Hmain.
  - now rewrite Hmain.
  - destruct (first_unset_Some _ _ Hfirst) as (before & value & rest & Heq & _ & Hall).
    now exists before, value, rest.
Qed.

Lemma missing_config_logs_and_returns_witness :
  exists var_name,
    var_name ∈ (required_vars Scenario.quiet).*1
    /\ falsy (getenv Scenario.quiet var_name) = true
    /\ main Scenario.quiet 2 3 io0
       = (Ret tt, after 0 [ELog ERROR (MsgEnvNotSet var_name)] io0)
    /\ exit_status (main Scenario.quiet 2 3 io0).1 = Some 0
    /\ exists before value rest,
         required_vars Scenario.quiet = (before ++ (var_name, value) :: rest)%list
         /\ Forall (fun kv : string * option string => falsy kv.2 = false) before.
Proof.
  apply (missing_config_logs_and_returns Scenario.quiet 2 3 io0
           "RELAYER_PRIVATE_KEY" 0).
  - reflexivity.
  - simpl. do 4 apply list_elem_of_further. apply list_elem_of_here.
  - reflexivity.
Defined.

(** C5 as stated fails: with no variable set at all, [main] logs that
    [SOURCE_CHAIN_RPC_URL] is not set and returns; the exit status is 0. *)
Lemma missing_config_exit_counterexample :
  ~ claimed_missing_config_exit Scenario.quiet 2 3 io0
  /\ main Scenario.quiet 2 3 io0
     = (Ret tt,
        {| tick := 0;
           trace := [ELog ERROR (MsgEnvNotSet "SOURCE_CHAIN_RPC_URL")] |})
  /\ exit_status (main Scenario.quiet 2 3 io0).1 = Some 0.
Proof.
  split; [|split].
  - intros Hclaim. destruct Hclaim as (code & Hexit & Hcode).
    + vm_compute. discriminate.
    + vm_compute in Hexit. inversion Hexit. congruence.
  - vm_compute. reflexivity.
  - vm_compute. reflexivity.
Qed.

(** * Further properties *)

(** ** The scanner: termination, chunks, completeness *)

Lemma scan_loop_returns env k0 fuel to_block max_range start all_events i :
  0 < max_range ->
  answers_from env k0 ->
  ((k0 - tick i) + Z.to_nat (to_block - start + 1) <= fuel)%nat ->
  exists evs i',
    scan_loop env fuel to_block max_range start all_events i = (Ret evs, i').
Proof.
  intros Hmax Hnode. revert start all_events i.
  induction fuel as [|fuel IH]; intros start all_events i Hfuel.
  - exists all_events, i. apply scan_loop_done. lia.
  - destruct (Z_le_gt_dec start to_block) as [Hle|Hgt].
    2:{ exists all_events, i. apply scan_loop_done. lia. }
    destruct (get_logs env (tick i) start (chunk_end start max_range to_block))
      as [event_logs|e] eqn:Hget.
    + rewrite (scan_loop_fetched env fuel _ _ _ _ _ _ Hle Hget).
      apply IH. unfold chunk_end, after. cbn [tick]. lia.
    + rewrite (scan_loop_refused env fuel _ _ _ _ _ _ Hle Hget).
      apply IH. unfold after. cbn [tick].
      destruct (le_lt_dec k0 (tick i)) as [Hk|Hk]; [|lia].
      destruct (Hnode (tick i) start (chunk_end start max_range to_block) Hk)
        as (l & Hl).
      congruence.
Qed.

(** X1: when the source node answers every query from some call on, a
    positive chunk size and an iteration bound of the number of calls still
    to fail plus the number of blocks of the window are enough for
    [scan_blocks] to return: the retries end and the window is walked to
    its end. *)
Theorem scan_blocks_returns env k0 fuel name from_block to_block max_range i :
  0 < max_range ->
  answers_from env k0 ->
  ((k0 - tick i) + Z.to_nat (to_block - from_block + 1) <= fuel)%nat ->
  exists evs i',
    scan_blocks env fuel name from_block to_block max_range i = (Ret evs, i').
Proof.
  intros Hmax Hnode Hfuel. unfold scan_blocks.
  destruct (from_block >? to_block); [now eexists _, _|].
  unfold bind, log, emit.
  apply (scan_loop_returns env k0); [done | done | exact Hfuel].
Qed.

Lemma flaky_answers_from_2 : answers_from Examples.flaky 2.
Proof.
  intros t a b Ht. simpl.
  destruct (t <? 2)%nat eqn:E; [apply Nat.ltb_lt in E; lia|].
  now eexists.
Qed.

Lemma scan_blocks_returns_witness :
  exists evs i',
    scan_blocks Examples.flaky 7 "TokensLocked" 91 95 1000 io0 = (Ret evs, i').
Proof.
  apply (scan_blocks_returns Examples.flaky 2 7 "TokensLocked" 91 95 1000 io0).
  - lia.
  - exact flaky_answers_from_2.
  - simpl. lia.
Defined.

(** A non-positive chunk size never moves [start] forward. *)
Lemma scan_loop_stalls env fuel to_block max_range start all_events i :
  max_range <= 0 ->
  start <= to_block ->
  (scan_loop env fuel to_block max_range start all_events i).1 = OutOfFuel.
Proof.
  intros Hmax. revert start all_events i.
  induction fuel as [|fuel IH]; intros start all_events i Hle.
  - now rewrite scan_loop_exhausted.
  - destruct (get_logs env (tick i) start (chunk_end start max_range to_block))
      as [event_logs|e] eqn:Hget.
    + rewrite (scan_loop_fetched env fuel _ _ _ _ _ _ Hle Hget).
      apply IH. unfold chunk_end. lia.
    + rewrite (scan_loop_refused env fuel _ _ _ _ _ _ Hle Hget).
      now apply IH.
Qed.

(** X2: with [max_range <= 0] and a window that is not empty,
    [scan_blocks] never returns, whatever the node answers: each chunk ends
    before it starts and the next one starts no later, so the loop
    condition stays true; the model stops on every iteration bound. *)
Theorem scan_blocks_nonpositive_range env fuel name from_block to_block max_range i :
  max_range <= 0 ->
  from_block <= to_block ->
  (scan_blocks env fuel name from_block to_block max_range i).1 = OutOfFuel.
Proof.
  intros Hmax Hle. unfold scan_blocks.
  destruct (from_block >? to_block) eqn:Hcmp.
  - apply Z.gtb_lt in Hcmp. lia.
  - unfold bind, log, emit. now apply scan_loop_stalls.
Qed.

Lemma scan_blocks_nonpositive_range_witness :
  (scan_blocks Examples.steady_node 9 "TokensLocked" 91 95 0 io0).1 = OutOfFuel.
Proof.
  apply scan_blocks_nonpositive_range; lia.
Defined.

Lemma scan_loop_chunks env fuel to_block max_range start all_events i r i' :
  scan_loop env fuel to_block max_range start all_events i = (r, i') ->
  exists new, trace i' = (new ++ trace i)%list
              /\ Forall (chunk_effect max_range to_block) new.
Proof.
  revert start all_events i.
  induction fuel as [|fuel IH]; intros start all_events i Hrun.
  - exists []. split; [|constructor].
    destruct (Z_le_gt_dec start to_block) as [Hle|Hgt].
    + rewrite scan_loop_exhausted in Hrun by done. now inversion Hrun.
    + rewrite scan_loop_done in Hrun by lia. now inversion Hrun.
  - destruct (Z_le_gt_dec start to_block) as [Hle|Hgt].
    + assert (Hchunk : chunk_effect max_range to_block
                         (EGetLogs start (chunk_end start max_range to_block)))
        by (unfold chunk_end; simpl; lia).
      destruct (get_logs env (tick i) start (chunk_end start max_range to_block))
        as [event_logs|x] eqn:Hget.
      * rewrite (scan_loop_fetched _ _ _ _ _ _ _ _ Hle Hget) in Hrun.
        apply IH in Hrun as (new & Htr & Hall).
        exists (new ++ fetched start (chunk_end start max_range to_block) event_logs)%list.
        split.
        -- rewrite Htr. unfold after. cbn [trace]. apply app_assoc.
        -- apply Forall_app. split; [exact Hall|].
           destruct event_logs; unfold fetched.
           ++ constructor; [exact Hchunk | constructor].
           ++ constructor; [exact I|]. constructor; [exact Hchunk | constructor].
      * rewrite (scan_loop_refused _ _ _ _ _ _ _ _ Hle Hget) in Hrun.
        apply IH in Hrun as (new & Htr & Hall).
        exists (new ++ refused start (chunk_end start max_range to_block) x)%list.
        split.
        -- rewrite Htr. unfold after. cbn [trace]. apply app_assoc.
        -- apply Forall_app. split; [exact Hall|]. unfold refused.
           constructor; [exact I|]. constructor; [exact I|].
           constructor; [exact Hchunk | constructor].
    + rewrite scan_loop_done in Hrun by lia. inversion Hrun; subst.
      exists []. split; [reflexivity | constructor].
Qed.

(** X3: every query of [scan_blocks] asks for at most [max_range] blocks,
    and for fewer only when it ends at [to_block]; with a positive
    [max_range] it also lies inside the window, first block first.  This
    holds for retried queries and for scans that were cut short as well. *)
Theorem scan_blocks_chunks env fuel name from_block to_block max_range i r i' :
  0 < max_range ->
  scan_blocks env fuel name from_block to_block max_range i = (r, i') ->
  exists new,
    trace i' = (new ++ trace i)%list
    /\ forall f t, EGetLogs f t ∈ new ->
         from_block <= f /\ f <= t /\ t <= to_block
         /\ t - f + 1 <= max_range
         /\ (t = to_block \/ t - f + 1 = max_range).
Proof.
  intros Hmax Hrun.
  destruct (scan_blocks_effects env _ _ _ _ _ _ _ _ Hmax Hrun) as (new & Htr & Hwin).
  exists new. split; [exact Htr|]. intros f t Hin.
  rewrite Forall_forall in Hwin. pose proof (Hwin _ Hin) as Hw. simpl in Hw.
  assert (Hchunk : chunk_effect max_range to_block (EGetLogs f t)); [|simpl in Hchunk; lia].
  revert Hrun. unfold scan_blocks. destruct (from_block >? to_block).
  - intros Hrun. inversion Hrun; subst i'.
    assert (new = []) as -> by (apply (app_inv_tail (trace i)); now rewrite <- Htr).
    now apply elem_of_nil in Hin.
  - unfold bind, log, emit. intros Hrun.
    apply scan_loop_chunks in Hrun as (new' & Htr' & Hall).
    cbn [trace] in Htr'.
    assert (Hnew : new = (new' ++ [ELog INFO (MsgScanning name from_block to_block)])%list).
    { apply (app_inv_tail (trace i)). rewrite <- Htr, Htr'.
      now rewrite <- app_assoc. }
    subst new. apply elem_of_app in Hin as [Hin|Hin].
    + rewrite Forall_forall in Hall. now apply Hall.
    + apply list_elem_of_singleton in Hin. discriminate.
Qed.

Lemma scan_blocks_chunks_witness :
  exists new,
    trace (scan_blocks Examples.flaky 7 "TokensLocked" 91 95 2 io0).2
    = (new ++ trace io0)%list
    /\ forall f t, EGetLogs f t ∈ new ->
         91 <= f /\ f <= t /\ t <= 95 /\ t - f + 1 <= 2
         /\ (t = 95 \/ t - f + 1 = 2).
Proof.
  apply (scan_blocks_chunks Examples.flaky 7 "TokensLocked" 91 95 2 io0
           (scan_blocks Examples.flaky 7 "TokensLocked" 91 95 2 io0).1).
  - lia.
  - apply surjective_pairing.
Defined.

Lemma in_range_empty a b ledger : b < a -> in_range a b ledger = [].
Proof.
  intros Hlt. unfold in_range.
  induction ledger as [|x l IH]; [reflexivity|].
  rewrite filter_cons. destruct (decide _) as [Hx|_]; [lia | exact IH].
Qed.

Lemma in_range_split lo s e ledger :
  lo <= s <= e + 1 ->
  (in_range lo (s - 1) ledger ++ in_range s e ledger)%list
  ≡ₚ in_range lo e ledger.
Proof.
  intros Hs. unfold in_range. induction ledger as [|x l IH]; [reflexivity|].
  rewrite !filter_cons.
  destruct (decide (lo <= blockNumber x /\ blockNumber x <= s - 1)) as [H1|H1];
    destruct (decide (s <= blockNumber x /\ blockNumber x <= e)) as [H2|H2];
    destruct (decide (lo <= blockNumber x /\ blockNumber x <= e)) as [H3|H3];
    try lia.
  - simpl. now rewrite IH.
  - rewrite <- Permutation_middle. now rewrite IH.
  - exact IH.
Qed.

Lemma scan_loop_ledger env ledger fuel to_block max_range start all_events i evs i' lo :
  ledger_node env ledger ->
  0 < max_range ->
  lo <= start <= to_block + 1 ->
  all_events ≡ₚ in_range lo (start - 1) ledger ->
  scan_loop env fuel to_block max_range start all_events i = (Ret evs, i') ->
  evs ≡ₚ in_range lo to_block ledger.
Proof.
  intros Hnode Hmax. revert start all_events i.
  induction fuel as [|fuel IH]; intros start all_events i Hstart Hall Hrun.
  - destruct (Z_le_gt_dec start to_block) as [Hle|Hgt].
    + rewrite scan_loop_exhausted in Hrun by done. discriminate.
    + rewrite scan_loop_done in Hrun by lia. inversion Hrun; subst.
      now replace to_block with (start - 1) by lia.
  - destruct (Z_le_gt_dec start to_block) as [Hle|Hgt].
    + destruct (get_logs env (tick i) start (chunk_end start max_range to_block))
        as [event_logs|x] eqn:Hget.
      * rewrite (scan_loop_fetched _ _ _ _ _ _ _ _ Hle Hget) in Hrun.
        apply IH in Hrun; [done | unfold chunk_end; lia |].
        rewrite (Hnode _ _ _ _ Hget), Hall.
        replace (chunk_end start max_range to_block + 1 - 1)
          with (chunk_end start max_range to_block) by lia.
        apply in_range_split. unfold chunk_end. lia.
      * rewrite (scan_loop_refused _ _ _ _ _ _ _ _ Hle Hget) in Hrun.
        apply IH in Hrun; done.
    + rewrite scan_loop_done in Hrun by lia. inversion Hrun; subst.
      now replace to_block with (start - 1) by lia.
Qed.

Lemma scan_blocks_ledger env ledger fuel name from_block to_block max_range i evs i' :
  ledger_node env ledger ->
  0 < max_range ->
  scan_blocks env fuel name from_block to_block max_range i = (Ret evs, i') ->
  evs ≡ₚ in_range from_block to_block ledger.
Proof.
  intros Hnode Hmax. unfold scan_blocks.
  destruct (from_block >? to_block) eqn:Hcmp.
  - intros Hrun. inversion Hrun; subst.
    apply Z.gtb_lt in Hcmp. now rewrite in_range_empty by lia.
  - unfold bind, log, emit. intros Hrun.
    rewrite Z.gtb_ltb in Hcmp. apply Z.ltb_ge in Hcmp.
    eapply (scan_loop_ledger env ledger fuel to_block max_range from_block []);
      [exact Hnode | exact Hmax | lia | | exact Hrun].
    now rewrite in_range_empty by lia.
Qed.

(** X4: when the source node, whenever it answers, answers with the events
    of a ledger that lie in the queried range, a scan that returns has
    collected exactly the events of the ledger in the window, each as often
    as the ledger has it: no sub-range is skipped and none is collected
    twice, however many queries failed and were retried on the way and
    whatever the chunk size. *)
Theorem scan_blocks_complete env ledger fuel name from_block to_block max_range i evs i' :
  ledger_node env ledger ->
  0 < max_range ->
  scan_blocks env fuel name from_block to_block max_range i = (Ret evs, i') ->
  evs ≡ₚ in_range from_block to_block ledger.
Proof.
  intros Hnode Hmax. unfold scan_blocks.
  destruct (from_block >? to_block) eqn:Hcmp.
  - intros Hrun. inversion Hrun; subst.
    apply Z.gtb_lt in Hcmp. now rewrite in_range_empty by lia.
  - unfold bind, log, emit. intros Hrun.
    rewrite Z.gtb_ltb in Hcmp. apply Z.ltb_ge in Hcmp.
    eapply (scan_loop_ledger env ledger fuel to_block max_range from_block []);
      [exact Hnode | exact Hmax | lia | | exact Hrun].
    now rewrite in_range_empty by lia.
Qed.

Lemma flaky_ledger_node : ledger_node Examples.flaky Examples.ledger.
Proof.
  intros t a b event_logs. simpl.
  destruct (t <? 2)%nat; intros Hget; [discriminate | now inversion Hget].
Qed.

Lemma scan_blocks_complete_witness :
  (scan_blocks Examples.flaky 7 "TokensLocked" 91 95 2 io0).1
  = Ret Examples.ledger
  /\ Examples.ledger ≡ₚ in_range 91 95 Examples.ledger.
Proof.
  split; [vm_compute; reflexivity|].
  apply (scan_blocks_complete Examples.flaky Examples.ledger 7 "TokensLocked"
           91 95 2 io0 Examples.ledger
           (scan_blocks Examples.flaky 7 "TokensLocked" 91 95 2 io0).2).
  - exact flaky_ledger_node.
  - lia.
  - vm_compute. reflexivity.
Defined.

(** ** The relayer: what the loop keeps *)

Lemma run_loop_step env cycles fuel poll w :
  run_loop env (S cycles) fuel poll w
  = match run_cycle env fuel poll w with
    | (Ret _, w1) => run_loop env cycles fuel poll w1
    | (Raise e, w1) => (Raise e, w1)
    | (OutOfFuel, w1) => (OutOfFuel, w1)
    end.
Proof. reflexivity. Qed.

(** What every cycle keeps, the loop keeps. *)
Lemma run_loop_invariant env (P : World -> Prop) :
  (forall fuel poll w r w', P w -> run_cycle env fuel poll w = (r, w') -> P w') ->
  forall cycles fuel poll w, P w -> P (run_loop env cycles fuel poll w).2.
Proof.
  intros Hcycle cycles fuel poll.
  induction cycles as [|cycles IH]; intros w Hw; [exact Hw|].
  rewrite run_loop_step.
  destruct (run_cycle env fuel poll w) as [[u|e|] w1] eqn:Hrun;
    pose proof (Hcycle _ _ _ _ _ Hw Hrun) as Hw1.
  - now apply IH.
  - exact Hw1.
  - exact Hw1.
Qed.

Lemma run_unfold env cycles fuel poll w :
  run env cycles fuel poll w
  = run_loop env cycles fuel poll
      (with_io w (after 0 [ELog INFO MsgLoopStart] (io w))).
Proof. reflexivity. Qed.

Lemma progress_refl w : progress w w.
Proof. unfold progress. repeat split; try done. Qed.

Lemma progress_trans w1 w2 w3 : progress w1 w2 -> progress w2 w3 -> progress w1 w3.
Proof.
  intros (Ha & Hm & Hb & Hn) (Ha' & Hm' & Hb' & Hn').
  unfold progress. repeat split; [congruence | congruence | lia | set_solver].
Qed.

Lemma run_cycle_progress env fuel poll w r w' :
  run_cycle env fuel poll w = (r, w') -> progress w w'.
Proof.
  intros Hrun.
  destruct (run_cycle_outcome env fuel poll w) as (r1 & w1 & Hrun1 & Hout).
  rewrite Hrun in Hrun1. inversion Hrun1; subst r1 w1. clear Hrun1.
  destruct Hout as [e Hhead | H Hhead Hle | H i1 Hhead Hlt Hscan
                   | H evs i1 w2 Hhead Hlt Hscan Hloop Hst Hall].
  - unfold progress. simpl. repeat split; first [done | lia].
  - unfold progress. simpl. repeat split; first [done | lia].
  - unfold progress. simpl. repeat split; first [done | lia].
  - destruct Hst as (Ha & Hb & Hm & Hn & _).
    unfold progress, window_top in *. simpl in *.
    repeat split; first [done | lia].
Qed.

(** X5: whatever the nodes do and however long the loop runs, [run] never
    moves [last_processed_block] back and never takes a nonce out of
    [processed_nonces]; the relayer address and the safety margin stay as
    they were. *)
Theorem run_never_goes_back env cycles fuel poll w :
  progress w (run env cycles fuel poll w).2.
Proof.
  rewrite run_unfold.
  apply (run_loop_invariant env (progress w)).
  - intros f p w1 r w2 Hw1 Hrun.
    eapply progress_trans; [exact Hw1|]. eapply run_cycle_progress; eauto.
  - unfold progress. simpl. repeat split; first [done | lia].
Qed.

(** ** The relayer: one submission per nonce *)

Lemma process_event_skips env event a w :
  args event = Some a ->
  nonce a ∈ processed_nonces (self w) ->
  process_event env event w
  = (Ret tt, with_io w (after 0 [ELog WARNING (MsgSkipNonce (nonce a))] (io w))).
Proof.
  intros Hargs Hin.
  unfold process_event, try_except, process_event_body, subscript_args, bind,
    get_self, ret, lift, log, emit.
  rewrite Hargs. simpl.
  destruct (decide (nonce a ∈ processed_nonces (self w))) as [_|Hnin]; [|done].
  reflexivity.
Qed.

(** X6: handling an event a second time is a no-op.  Once the body of
    [process_event] has returned for an event, another call of
    [process_event] for the same event only writes the WARNING line: no
    external call, no change of the relayer.  An event that the node
    returns twice, or an overlap of two windows, cannot lead to a second
    submission. *)
Theorem process_event_twice env event w u w1 :
  process_event_body env event w = (Ret u, w1) ->
  exists a,
    args event = Some a
    /\ process_event env event w1
       = (Ret tt,
          with_io w1 (after 0 [ELog WARNING (MsgSkipNonce (nonce a))] (io w1))).
Proof.
  intros Hbody.
  pose proof (process_event_body_cases env event w) as Hcases.
  rewrite Hbody in Hcases. destruct Hcases as (_ & a & Hargs & Hin).
  exists a. split; [exact Hargs|]. now apply process_event_skips.
Qed.

Lemma process_event_twice_witness :
  exists a,
    args (Scenario.transfer 93 1 8) = Some a
    /\ process_event Scenario.unconfirmed (Scenario.transfer 93 1 8)
         (process_event_body Scenario.unconfirmed (Scenario.transfer 93 1 8)
            (Scenario.world_at 90 ∅)).2
       = (Ret tt,
          with_io
            (process_event_body Scenario.unconfirmed (Scenario.transfer 93 1 8)
               (Scenario.world_at 90 ∅)).2
            (after 0 [ELog WARNING (MsgSkipNonce (nonce a))]
               (io (process_event_body Scenario.unconfirmed
                      (Scenario.transfer 93 1 8) (Scenario.world_at 90 ∅)).2))).
Proof.
  apply (process_event_twice Scenario.unconfirmed (Scenario.transfer 93 1 8)
           (Scenario.world_at 90 ∅) tt).
  vm_compute. reflexivity.
Defined.

Lemma sent_app tr1 tr2 : sent (tr1 ++ tr2) = (sent tr1 ++ sent tr2)%list.
Proof.
  induction tr1 as [|ef tr1 IH]; [reflexivity|].
  destruct ef as [lvl m| | | | | | | | | |]; simpl; try exact IH.
  destruct m; simpl; try exact IH. now rewrite IH.
Qed.

(** What one call of [process_event] does to the submissions: nothing, or
    one submission for a nonce that was not in [processed_nonces] and now
    is. *)
Lemma process_event_submits env event w w' :
  process_event env event w = (Ret tt, w') ->
  (sent (trace (io w')) = sent (trace (io w))
   /\ processed_nonces (self w') = processed_nonces (self w))
  \/ (exists a,
        args event = Some a
        /\ (nonce a ∉ processed_nonces (self w))
        /\ sent (trace (io w')) = nonce a :: sent (trace (io w))
        /\ processed_nonces (self w') = processed_nonces (self w) ∪ {[ nonce a ]}).
Proof.
  unfold process_event, try_except, process_event_body, subscript_args, bind,
    raise, ret, get_self, lift, call, log, emit, add_processed_nonce.
  destruct (args event) as [a|] eqn:Hargs; simpl.
  2:{ intros H. inversion H; subst. now left. }
  destruct (decide (nonce a ∈ processed_nonces (self w))) as [Hin|Hnin]; simpl.
  { intros H. inversion H; subst. now left. }
  destruct (mintTokens env _ _); simpl.
  2:{ intros H. inversion H; subst. now left. }
  destruct (get_transaction_count env _ _); simpl.
  2:{ intros H. inversion H; subst. now left. }
  destruct (gas_price env _); simpl.
  2:{ intros H. inversion H; subst. now left. }
  destruct (build_transaction env _ _ _); simpl.
  2:{ intros H. inversion H; subst. now left. }
  destruct (sign_transaction env _ _); simpl.
  2:{ intros H. inversion H; subst. now left. }
  intros H. inversion H; subst. right. exists a. simpl. repeat split; done.
Qed.

Lemma process_event_delivered_once env event w w' :
  delivered_once w ->
  process_event env event w = (Ret tt, w') ->
  delivered_once w'.
Proof.
  intros (Hnodup & Hsub) Hrun.
  destruct (process_event_submits env event w w' Hrun)
    as [(Hsent & Hnonces) | (a & _ & Hnew & Hsent & Hnonces)];
    unfold delivered_once; rewrite Hsent, Hnonces.
  - split; [exact Hnodup | exact Hsub].
  - split.
    + apply NoDup_cons. split; [|exact Hnodup].
      intros Hin. apply Hnew. now apply Hsub.
    + intros n Hin. apply elem_of_union.
      apply elem_of_cons in Hin as [->|Hin].
      * right. now apply elem_of_singleton.
      * left. now apply Hsub.
Qed.

Lemma for_each_delivered_once env events w w' :
  delivered_once w ->
  for_each events (process_event env) w = (Ret tt, w') ->
  delivered_once w'.
Proof.
  revert w. induction events as [|event rest IH]; intros w Hw Hrun.
  - inversion Hrun; now subst.
  - destruct (process_event_returns env event w) as (w1 & Hone & _ & _).
    simpl in Hrun. rewrite (bind_Ret _ _ _ _ _ Hone) in Hrun.
    eapply IH; [|exact Hrun].
    eapply process_event_delivered_once; eauto.
Qed.

Lemma scan_loop_sent env fuel to_block max_range start all_events i r i' :
  scan_loop env fuel to_block max_range start all_events i = (r, i') ->
  sent (trace i') = sent (trace i).
Proof.
  revert start all_events i.
  induction fuel as [|fuel IH]; intros start all_events i Hrun.
  - destruct (Z_le_gt_dec start to_block) as [Hle|Hgt].
    + rewrite scan_loop_exhausted in Hrun by done. now inversion Hrun.
    + rewrite scan_loop_done in Hrun by lia. now inversion Hrun.
  - destruct (Z_le_gt_dec start to_block) as [Hle|Hgt].
    + destruct (get_logs env (tick i) start (chunk_end start max_range to_block))
        as [event_logs|x] eqn:Hget.
      * rewrite (scan_loop_fetched _ _ _ _ _ _ _ _ Hle Hget) in Hrun.
        apply IH in Hrun. rewrite Hrun. unfold after. cbn [trace].
        rewrite sent_app. now destruct event_logs.
      * rewrite (scan_loop_refused _ _ _ _ _ _ _ _ Hle Hget) in Hrun.
        apply IH in Hrun. now rewrite Hrun.
    + rewrite scan_loop_done in Hrun by lia. now inversion Hrun.
Qed.

Lemma cycle_scan_sent env fuel H w r i1 :
  cycle_scan env fuel H w = (r, i1) -> sent (trace i1) = sent (trace (io w)).
Proof.
  unfold cycle_scan, scan_blocks.
  destruct (last_processed_block (self w) + 1 >? window_top H w).
  - intros Hrun. now inversion Hrun.
  - unfold bind, log, emit. intros Hrun.
    apply scan_loop_sent in Hrun. now rewrite Hrun.
Qed.

Lemma run_cycle_delivered_once env fuel poll w r w' :
  delivered_once w ->
  run_cycle env fuel poll w = (r, w') ->
  delivered_once w'.
Proof.
  intros Hw Hrun.
  destruct (run_cycle_outcome env fuel poll w) as (r1 & w1 & Hrun1 & Hout).
  rewrite Hrun in Hrun1. inversion Hrun1; subst r1 w1. clear Hrun1.
  destruct Hout as [e Hhead | H Hhead Hle | H i1 Hhead Hlt Hscan
                   | H evs i1 w2 Hhead Hlt Hscan Hloop Hst Hall].
  - unfold delivered_once, loop_handled in *. simpl.
    now destruct (is_ConnectionError e).
  - exact Hw.
  - apply cycle_scan_sent in Hscan.
    unfold delivered_once in *. simpl. now rewrite Hscan.
  - apply cycle_scan_sent in Hscan.
    assert (Hw1 : delivered_once (with_io w i1)).
    { unfold delivered_once in *. simpl. now rewrite Hscan. }
    pose proof (for_each_delivered_once env _ _ _ Hw1 Hloop) as Hw2.
    exact Hw2.
Qed.

Lemma run_keeps_delivered_once env cycles fuel poll w :
  delivered_once w ->
  delivered_once (run env cycles fuel poll w).2.
Proof.
  intros Hw. rewrite run_unfold.
  apply (run_loop_invariant env delivered_once).
  - intros f p w1 r w2. apply run_cycle_delivered_once.
  - exact Hw.
Qed.

(** X7: [run] submits no nonce twice.  When, at the start, the submissions
    in the trace are for distinct nonces that are all in [processed_nonces]
    (as for a relayer fresh from its constructor), the same holds after any
    number of cycles, whatever the nodes answer: failures, retries,
    repeated events and repeated nonces included. *)
Theorem run_delivers_once env cycles fuel poll w :
  delivered_once w ->
  delivered_once (run env cycles fuel poll w).2.
Proof.
  intros Hw. rewrite run_unfold.
  apply (run_loop_invariant env delivered_once).
  - intros f p w1 r w2 Hw1 Hrun.
    eapply run_cycle_delivered_once; [exact Hw1 | exact Hrun].
  - exact Hw.
Qed.

Lemma run_delivers_once_witness :
  delivered_once (run Scenario.unconfirmed 4 3 15 (Scenario.world_at 90 ∅)).2.
Proof.
  apply run_delivers_once.
  split; [constructor|]. intros n Hin. now apply elem_of_nil in Hin.
Defined.

(** ** The relayer: a window with nodes that answer *)

Lemma recorded_steady w w' event :
  steady w w' -> recorded (self w) event -> recorded (self w') event.
Proof.
  intros (_ & _ & _ & Hsub & _) (a & Ha & Hin).
  exists a. split; [exact Ha|]. now apply Hsub.
Qed.

Lemma process_event_body_reliable env event a w e w1 :
  reliable_destination env ->
  args event = Some a ->
  process_event_body env event w <> (Raise e, w1).
Proof.
  intros (Hmint & Hcount & Hprice & Hbuild & Hsign) Hargs.
  unfold process_event_body, subscript_args, bind, raise, ret, get_self, lift,
    call, log, emit, add_processed_nonce.
  rewrite Hargs. simpl.
  destruct (decide (nonce a ∈ processed_nonces (self w))); simpl; [discriminate|].
  rewrite Hmint. simpl.
  destruct (get_transaction_count env _ _) as [cnt|x] eqn:E1; simpl.
  2:{ match type of E1 with
      | get_transaction_count env ?t ?addr = _ =>
          destruct (Hcount t addr) as (n' & Hn); congruence
      end. }
  destruct (gas_price env _) as [p|x] eqn:E2; simpl.
  2:{ match type of E2 with
      | gas_price env ?t = _ => destruct (Hprice t) as (p' & Hp); congruence
      end. }
  destruct (build_transaction env _ _ _) as [tx|x] eqn:E3; simpl.
  2:{ match type of E3 with
      | build_transaction env ?t ?c ?q = _ =>
          destruct (Hbuild t c q) as (tx' & Htx); congruence
      end. }
  destruct (sign_transaction env _ _) as [raw|x] eqn:E4; simpl.
  2:{ match type of E4 with
      | sign_transaction env ?t ?d = _ =>
          destruct (Hsign t d) as (raw' & Hraw); congruence
      end. }
  discriminate.
Qed.

Lemma process_event_delivers env event w :
  reliable_destination env ->
  is_Some (args event) ->
  exists w', process_event env event w = (Ret tt, w')
             /\ steady w w' /\ recorded (self w') event.
Proof.
  intros Hdest (a & Hargs).
  pose proof (process_event_body_cases env event w) as Hcases.
  destruct (process_event_body env event w) as [[u|e|] w1] eqn:Hbody.
  - destruct Hcases as (Hst & Hrec).
    exists w1. split; [eapply process_event_Ret; eauto|]. now split.
  - exfalso. eapply process_event_body_reliable; eauto.
  - contradiction.
Qed.

Lemma for_each_delivers env events w :
  reliable_destination env ->
  Forall (fun ev => is_Some (args ev)) events ->
  exists w', for_each events (process_event env) w = (Ret tt, w')
             /\ steady w w' /\ Forall (recorded (self w')) events.
Proof.
  intros Hdest Hargs. revert w.
  induction Hargs as [|event rest Hevent Hrest IH]; intros w.
  - exists w. split; [reflexivity|]. split; [apply steady_refl | constructor].
  - destruct (process_event_delivers env event w Hdest Hevent)
      as (w1 & Hone & Hst & Hrec).
    destruct (IH w1) as (w2 & Hloop & Hst' & Hall).
    exists w2. split; [|split].
    + simpl. now rewrite (bind_Ret _ _ _ _ _ Hone).
    + eapply steady_trans; eauto.
    + constructor; [|exact Hall]. eapply recorded_steady; eauto.
Qed.

Lemma cycle_relays_ledger env ledger fuel poll w H evs i1 :
  ledger_node env ledger ->
  reliable_destination env ->
  Forall (fun ev => is_Some (args ev)) ledger ->
  block_number env (tick (io w)) = Returns H ->
  last_processed_block (self w) < H - reorg_safety_margin (self w) ->
  cycle_scan env fuel H w = (Ret evs, i1) ->
  exists w',
    run_cycle env fuel poll w = (Ret tt, w')
    /\ last_processed_block (self w') = H - reorg_safety_margin (self w)
    /\ forall ev,
         ev ∈ ledger ->
         last_processed_block (self w) < blockNumber ev ->
         blockNumber ev <= H - reorg_safety_margin (self w) ->
         recorded (self w') ev.
Proof.
  intros Hnode Hdest Hargs Hhead Hlt Hscan.
  assert (Hevs : evs ≡ₚ in_range (last_processed_block (self w) + 1)
                          (window_top H w) ledger).
  { eapply scan_blocks_ledger; [exact Hnode | | exact Hscan]. lia. }
  assert (Hsome : Forall (fun ev => is_Some (args ev)) (sort_events evs)).
  { rewrite sort_events_Permutation, Hevs.
    apply Forall_forall. intros ev Hin.
    apply list_elem_of_filter in Hin as [_ Hin].
    rewrite Forall_forall in Hargs. now apply Hargs. }
  destruct (for_each_delivers env (sort_events evs) (with_io w i1) Hdest Hsome)
    as (w2 & Hloop & Hst & Hall).
  exists (advanced (window_top H w) poll w2). split; [|split].
  - unfold run_cycle. eapply try_except_Ret.
    eapply run_cycle_body_scanned; eauto.
  - reflexivity.
  - intros ev Hin Hlo Hhi.
    assert (Hev : ev ∈ sort_events evs).
    { rewrite sort_events_Permutation, Hevs.
      apply list_elem_of_filter. split; [|exact Hin].
      unfold window_top. lia. }
    rewrite Forall_forall in Hall. exact (Hall ev Hev).
Qed.

(** X8: a window in which nothing fails is relayed in full.  When the
    source node answers from a ledger whose events all carry their
    arguments, the destination node answers every call and the scan of the
    cycle has returned, the cycle ends normally with the watermark at
    [head - margin] and with the nonce of every ledger event of the window
    [last_processed_block + 1 .. head - margin] in [processed_nonces]. *)
Theorem cycle_delivers_window env ledger fuel poll w H evs i1 :
  ledger_node env ledger ->
  reliable_destination env ->
  Forall (fun ev => is_Some (args ev)) ledger ->
  block_number env (tick (io w)) = Returns H ->
  last_processed_block (self w) < H - reorg_safety_margin (self w) ->
  cycle_scan env fuel H w = (Ret evs, i1) ->
  exists w',
    run_cycle env fuel poll w = (Ret tt, w')
    /\ last_processed_block (self w') = H - reorg_safety_margin (self w)
    /\ forall ev,
         ev ∈ ledger ->
         last_processed_block (self w) < blockNumber ev ->
         blockNumber ev <= H - reorg_safety_margin (self w) ->
         recorded (self w') ev.
Proof.
  intros Hnode Hdest Hargs Hhead Hlt Hscan.
  assert (Hevs : evs ≡ₚ in_range (last_processed_block (self w) + 1)
                          (window_top H w) ledger).
  { eapply scan_blocks_ledger; [exact Hnode | | exact Hscan]. lia. }
  assert (Hsome : Forall (fun ev => is_Some (args ev)) (sort_events evs)).
  { rewrite sort_events_Permutation, Hevs.
    apply Forall_forall. intros ev Hin.
    apply list_elem_of_filter in Hin as [_ Hin].
    rewrite Forall_forall in Hargs. now apply Hargs. }
  destruct (for_each_delivers env (sort_events evs) (with_io w i1) Hdest Hsome)
    as (w2 & Hloop & Hst & Hall).
  exists (advanced (window_top H w) poll w2). split; [|split].
  - unfold run_cycle. eapply try_except_Ret.
    eapply run_cycle_body_scanned; eauto.
  - reflexivity.
  - intros ev Hin Hlo Hhi.
    assert (Hev : ev ∈ sort_events evs).
    { rewrite sort_events_Permutation, Hevs.
      apply list_elem_of_filter. split; [|exact Hin].
      unfold window_top. lia. }
    rewrite Forall_forall in Hall. exact (Hall ev Hev).
Qed.

Lemma steady_node_ledger : ledger_node Examples.steady_node Examples.ledger.
Proof. intros t a b event_logs Hget. now inversion Hget. Qed.

Lemma steady_node_reliable : reliable_destination Examples.steady_node.
Proof.
  unfold reliable_destination. simpl. repeat split; intros; now eexists.
Qed.

Lemma cycle_delivers_window_witness :
  exists w',
    run_cycle Examples.steady_node 3 15 (Scenario.world_at 90 ∅) = (Ret tt, w')
    /\ last_processed_block (self w') = 95
    /\ recorded (self w') (Scenario.transfer 93 0 7).
Proof.
  destruct (cycle_delivers_window Examples.steady_node Examples.ledger 3 15
              (Scenario.world_at 90 ∅) 100 Examples.ledger
              (cycle_scan Examples.steady_node 3 100 (Scenario.world_at 90 ∅)).2)
    as (w' & Hrun & Hlast & Hall).
  - exact steady_node_ledger.
  - exact steady_node_reliable.
  - repeat constructor; now eexists.
  - reflexivity.
  - simpl. lia.
  - vm_compute. reflexivity.
  - exists w'. split; [exact Hrun|]. split; [exact Hlast|].
    apply Hall; [|simpl; lia|simpl; lia].
    apply list_elem_of_further, list_elem_of_here.
Defined.

(** ** The ordering step: sorted input, equal keys *)

Lemma insert_event_least x l :
  Forall (event_le x) l -> insert_event x l = x :: l.
Proof.
  intros Hall. destruct l as [|y l]; [reflexivity|].
  simpl. inversion Hall as [|? ? Hxy _]; subst.
  apply key_leb_le in Hxy. now rewrite Hxy.
Qed.

Lemma sort_events_sorted_id l :
  StronglySorted event_le l -> sort_events l = l.
Proof.
  induction 1 as [|x l Hsorted IH Hall]; [reflexivity|].
  unfold sort_events in *. simpl. rewrite IH.
  now apply insert_event_least.
Qed.

(** X9: the ordering step leaves a list alone that is already ascending by
    (blockNumber, logIndex), which is how a node returns the events of one
    query; and sorting twice is the same as sorting once. *)
Theorem sort_events_fixes_sorted :
  (forall l, StronglySorted event_le l -> sort_events l = l)
  /\ (forall l, sort_events (sort_events l) = sort_events l).
Proof.
  split.
  - apply sort_events_sorted_id.
  - intros l. apply sort_events_sorted_id, sort_events_sorted.
Qed.

Lemma sort_events_fixes_sorted_witness :
  sort_events [Scenario.transfer 91 0 1; Scenario.transfer 93 0 7;
               Scenario.transfer 93 1 8]
  = [Scenario.transfer 91 0 1; Scenario.transfer 93 0 7; Scenario.transfer 93 1 8].
Proof.
  apply (proj1 sort_events_fixes_sorted).
  repeat constructor; unfold key_le; simpl; lia.
Defined.

Lemma insert_event_same_key k x l :
  filter (fun ev => sort_key ev = k) (insert_event x l)
  = filter (fun ev => sort_key ev = k) (x :: l).
Proof.
  induction l as [|y l IH]; [reflexivity|].
  simpl. destruct (key_leb (sort_key x) (sort_key y)) eqn:Hcmp; [reflexivity|].
  rewrite (filter_cons _ y (insert_event x l)), IH.
  rewrite !filter_cons.
  destruct (decide (sort_key y = k)) as [Hy|Hy];
    destruct (decide (sort_key x = k)) as [Hx|Hx]; try reflexivity.
  exfalso.
  assert (Hle : key_leb (sort_key x) (sort_key y) = true); [|congruence].
  apply key_leb_le. rewrite Hx, Hy. unfold key_le. lia.
Qed.

(** X10: the ordering step is stable: events with the same
    (blockNumber, logIndex) are handled in the order in which the scan
    collected them.  For every key, the events with that key appear in the
    sorted list in the same order as in the list that was sorted. *)
Theorem sort_events_stable k l :
  filter (fun ev => sort_key ev = k) (sort_events l)
  = filter (fun ev => sort_key ev = k) l.
Proof.
  induction l as [|x l IH]; [reflexivity|].
  unfold sort_events in *. simpl.
  rewrite insert_event_same_key, !filter_cons, IH. reflexivity.
Qed.

(** ** Start-up: validation, connections, contracts *)

(** X11: the validation loop of [main] passes exactly when every required
    variable has a value that is not empty; when it does not pass, it
    reports one variable, the first in the order of [required_vars] whose
    value is missing or empty, whatever the later ones are. *)
Theorem validation_reports_first_missing :
  (forall l, first_unset l = None <-> Forall (fun kv => falsy kv.2 = false) l)
  /\ (forall l var_name,
        first_unset l = Some var_name ->
        exists before value rest,
          l = (before ++ (var_name, value) :: rest)%list
          /\ falsy value = true
          /\ Forall (fun kv => falsy kv.2 = false) before).
Proof.
  split; [apply first_unset_None | apply first_unset_Some].
Qed.

Lemma validation_reports_first_missing_witness :
  exists before value rest,
    [("A", Some "x"); ("B", Some ""); ("C", None)]
    = (before ++ ("B", value) :: rest)%list
    /\ falsy value = true
    /\ Forall (fun kv : string * option string => falsy kv.2 = false) before.
Proof.
  apply (proj2 validation_reports_first_missing
           [("A", Some "x"); ("B", Some ""); ("C", None)] "B").
  reflexivity.
Defined.

Lemma main_configured env cycles fuel START_BLOCK i :
  configured env START_BLOCK ->
  main env cycles fuel i
  = try_except (main_body env cycles fuel START_BLOCK)
      (fun e => emit (init_report e)) i.
Proof.
  intros (Hint & Hfirst). unfold main. rewrite Hint, Hfirst.
  unfold try_except.
  destruct (main_body env cycles fuel START_BLOCK i) as [[u|e|] i1]; try reflexivity.
  unfold init_report, log. now destruct (is_ConnectionError e).
Qed.

Lemma connector_connects env rpc_url i :
  connect env (tick i) rpc_url = Returns tt ->
  BlockchainConnector_init env rpc_url i
  = (Ret tt, after 1 [ELog INFO (MsgConnected rpc_url); EConnect rpc_url] i).
Proof.
  intros Hconnect.
  unfold BlockchainConnector_init, try_except, bind, call, log, emit.
  now rewrite Hconnect.
Qed.

Lemma connector_fails env rpc_url i e :
  connect env (tick i) rpc_url = Raises e ->
  BlockchainConnector_init env rpc_url i
  = (Raise (connect_failure rpc_url e),
     after 1 (connect_failure_log rpc_url e ++ [EConnect rpc_url]) i).
Proof.
  intros Hconnect.
  unfold BlockchainConnector_init, try_except, bind, call, log, emit, raise,
    connect_failure, connect_failure_log.
  rewrite Hconnect. now destruct (is_RequestException e).
Qed.

(** X12: [BlockchainConnector] never lets a [RequestException] out.  When
    the [try] of [_connect] raises one, the constructor logs it at level
    ERROR and raises [ConnectionError("Could not reach RPC endpoint: <url>")]
    in its place; any other exception, the [ConnectionError]s that the [try]
    raises itself included, passes unchanged and without a log line.  So no
    exception that leaves the constructor is a [RequestException]. *)
Theorem connector_hides_request_exception env rpc_url i :
  (forall e i',
     BlockchainConnector_init env rpc_url i = (Raise e, i') ->
     is_RequestException e = false)
  /\ (forall e0,
        connect env (tick i) rpc_url = Raises e0 ->
        is_RequestException e0 = true ->
        exists i',
          BlockchainConnector_init env rpc_url i
          = (Raise (ConnectionError
                      (String.append "Could not reach RPC endpoint: " rpc_url)), i')
          /\ trace i' = ELog ERROR (MsgRequestFailed rpc_url e0)
                        :: EConnect rpc_url :: trace i)
  /\ (forall e0,
        connect env (tick i) rpc_url = Raises e0 ->
        is_RequestException e0 = false ->
        exists i',
          BlockchainConnector_init env rpc_url i = (Raise e0, i')
          /\ trace i' = EConnect rpc_url :: trace i).
Proof.
  split; [|split].
  - intros e i'.
    destruct (connect env (tick i) rpc_url) as [[]|e0] eqn:Hconnect.
    + rewrite (connector_connects env rpc_url i Hconnect). discriminate.
    + rewrite (connector_fails env rpc_url i e0 Hconnect).
      intros Heq. inversion Heq; subst. unfold connect_failure.
      destruct (is_RequestException e0) eqn:E; [reflexivity | exact E].
  - intros e0 Hconnect Hkind.
    rewrite (connector_fails env rpc_url i e0 Hconnect).
    unfold connect_failure, connect_failure_log. rewrite Hkind.
    eexists. split; reflexivity.
  - intros e0 Hconnect Hkind.
    rewrite (connector_fails env rpc_url i e0 Hconnect).
    unfold connect_failure, connect_failure_log. rewrite Hkind.
    eexists. split; reflexivity.
Qed.

Lemma connector_hides_request_exception_witness :
  exists i',
    BlockchainConnector_init Examples.unreachable_source "http://source" io0
    = (Raise (ConnectionError "Could not reach RPC endpoint: http://source"), i')
    /\ trace i' = [ELog ERROR (MsgRequestFailed "http://source"
                                 (RequestException "connection refused"));
                   EConnect "http://source"].
Proof.
  apply (proj1 (proj2 (connector_hides_request_exception
                         Examples.unreachable_source "http://source" io0))
           (RequestException "connection refused")); reflexivity.
Defined.

(** X13: the only exception that leaves [main] is the [ValueError] of
    [int] for a [START_BLOCK] that is no number: it is raised before the
    validation and outside the [try], with nothing logged and nothing
    called.  Every other failure of the start-up is caught and logged. *)
Theorem main_raises_only_for_start_block env cycles fuel i e i' :
  main env cycles fuel i = (Raise e, i')
  <-> py_int env (default "0" (getenv env "START_BLOCK")) = None
      /\ e = ValueError "invalid literal for int()"
      /\ i' = i.
Proof.
  unfold main.
  destruct (py_int env (default "0" (getenv env "START_BLOCK"))) as [sb|].
  - split; [|intros (Habs & _); discriminate].
    destruct (first_unset (required_vars env)); [discriminate|].
    unfold try_except.
    destruct (main_body env cycles fuel sb i) as [[u|x|] i1];
      [discriminate | | discriminate].
    destruct (is_ConnectionError x); discriminate.
  - unfold raise. split.
    + intros Heq. now inversion Heq.
    + intros (_ & -> & ->). reflexivity.
Qed.

Lemma main_raises_only_for_start_block_witness :
  main Examples.bad_start 2 3 io0
  = (Raise (ValueError "invalid literal for int()"), io0).
Proof.
  apply (main_raises_only_for_start_block Examples.bad_start 2 3 io0).
  split; [vm_compute; reflexivity | split; reflexivity].
Defined.

Lemma bind_Raise {S A B} (m : M S A) (k : A -> M S B) s e s' :
  m s = (Raise e, s') -> bind m k s = (Raise e, s').
Proof. intros H. unfold bind. now rewrite H. Qed.

Lemma get_contract_logs env address i :
  get_contract env address i
  = (Ret (if is_address env address then Some address else None),
     after 0 (address_log env address) i).
Proof.
  unfold get_contract, address_log, bind, log, emit, ret.
  destruct i. now destruct (is_address env address).
Qed.

(** The start of [main_body]: the first log line. *)
Lemma main_body_begins env cycles fuel START_BLOCK i :
  main_body env cycles fuel START_BLOCK i
  = bind (BlockchainConnector_init env (source_url env))
      (fun _ =>
         bind (BlockchainConnector_init env (dest_url env))
           (fun _ =>
              bind (get_contract env (source_address env))
                (fun source_contract =>
                   bind (get_contract env (dest_address env))
                     (fun dest_contract =>
                        match source_contract, dest_contract with
                        | Some _, Some _ =>
                            bind (BridgeRelayer_init env (relayer_key env) START_BLOCK)
                              (fun relayer =>
                                 with_relayer relayer (run env cycles fuel 15))
                        | _, _ => log ERROR MsgContractsFailed
                        end))))
      (after 0 [ELog INFO MsgInitializing] i).
Proof. reflexivity. Qed.

(** X14: when a node cannot be reached, [main] stops there.  When the
    construction of the source connector raises, [main] logs the failure at
    level CRITICAL and returns, and the trace shows the attempt on the
    source node and nothing after it: the destination node is not
    contacted.  When the source connector is built and the construction of
    the destination connector raises, [main] stops in the same way after
    that attempt.  In neither case is a contract bound, the key used or the
    loop started.  A [RequestException] is reported as
    [ConnectionError("Could not reach RPC endpoint: <url>")], by the handler
    for connection errors. *)
Theorem main_stops_at_unreachable_node :
  (forall env cycles fuel START_BLOCK i e,
     configured env START_BLOCK ->
     connect env (tick i) (source_url env) = Raises e ->
     exists i',
       main env cycles fuel i = (Ret tt, i')
       /\ trace i'
          = ([init_report (connect_failure (source_url env) e)]
             ++ connect_failure_log (source_url env) e
             ++ [EConnect (source_url env); ELog INFO MsgInitializing]
             ++ trace i)%list)
  /\ (forall env cycles fuel START_BLOCK i e,
        configured env START_BLOCK ->
        connect env (tick i) (source_url env) = Returns tt ->
        connect env (S (tick i)) (dest_url env) = Raises e ->
        exists i',
          main env cycles fuel i = (Ret tt, i')
          /\ trace i'
             = ([init_report (connect_failure (dest_url env) e)]
                ++ connect_failure_log (dest_url env) e
                ++ [EConnect (dest_url env);
                    ELog INFO (MsgConnected (source_url env));
                    EConnect (source_url env);
                    ELog INFO MsgInitializing]
                ++ trace i)%list)
  /\ (forall rpc_url msg,
        init_report (connect_failure rpc_url (RequestException msg))
        = ELog CRITICAL
            (MsgInitConnectionFailed
               (ConnectionError
                  (String.append "Could not reach RPC endpoint: " rpc_url)))).
Proof.
  split; [|split].
  - intros env cycles fuel sb i e Hcfg Hsrc.
    rewrite (main_configured env cycles fuel sb i Hcfg).
    erewrite try_except_Raise.
    2:{ rewrite main_body_begins. eapply bind_Raise.
        apply connector_fails. exact Hsrc. }
    eexists. split; [reflexivity|].
    unfold emit, after. cbn [tick trace]. simpl. now rewrite <- !app_assoc.
  - intros env cycles fuel sb i e Hcfg Hsrc Hdst.
    rewrite (main_configured env cycles fuel sb i Hcfg).
    erewrite try_except_Raise.
    2:{ rewrite main_body_begins. erewrite bind_Ret.
        2:{ apply connector_connects. exact Hsrc. }
        eapply bind_Raise. apply connector_fails. exact Hdst. }
    eexists. split; [reflexivity|].
    unfold emit, after. cbn [tick trace]. simpl. now rewrite <- !app_assoc.
  - reflexivity.
Qed.

Lemma unreachable_source_configured : configured Examples.unreachable_source 90.
Proof. split; vm_compute; reflexivity. Qed.

Lemma main_stops_at_unreachable_node_witness :
  exists i',
    main Examples.unreachable_source 2 3 io0 = (Ret tt, i')
    /\ trace i'
       = [ELog CRITICAL
            (MsgInitConnectionFailed
               (ConnectionError "Could not reach RPC endpoint: http://source"));
          ELog ERROR (MsgRequestFailed "http://source"
                        (RequestException "connection refused"));
          EConnect "http://source";
          ELog INFO MsgInitializing].
Proof.
  apply (proj1 main_stops_at_unreachable_node Examples.unreachable_source
           2%nat 3%nat 90 io0 (RequestException "connection refused")).
  - exact unreachable_source_configured.
  - vm_compute. reflexivity.
Defined.

(** X15: when both nodes answer and one of the two contract addresses is
    not a valid address, [main] logs every invalid address and then that
    the contracts could not be initialised, both at level ERROR, and
    returns after the two connection calls: the relayer key is never used
    and the loop never started. *)
Theorem main_stops_at_invalid_contract env cycles fuel START_BLOCK i :
  configured env START_BLOCK ->
  connect env (tick i) (source_url env) = Returns tt ->
  connect env (S (tick i)) (dest_url env) = Returns tt ->
  is_address env (source_address env) && is_address env (dest_address env) = false ->
  main env cycles fuel i
  = (Ret tt,
     after 2 ([ELog ERROR MsgContractsFailed]
              ++ address_log env (dest_address env)
              ++ address_log env (source_address env)
              ++ connected_trace env) i).
Proof.
  intros Hcfg Hsrc Hdst Haddr.
  rewrite (main_configured env cycles fuel START_BLOCK i Hcfg).
  erewrite try_except_Ret; [reflexivity|].
  rewrite main_body_begins.
  erewrite bind_Ret; [|apply connector_connects; exact Hsrc].
  erewrite bind_Ret; [|apply connector_connects; exact Hdst].
  erewrite bind_Ret; [|apply get_contract_logs].
  erewrite bind_Ret; [|apply get_contract_logs].
  unfold log, emit, after, connected_trace. cbn [tick trace].
  destruct (is_address env (source_address env));
    destruct (is_address env (dest_address env)); try discriminate;
    f_equal; f_equal; simpl; now rewrite <- ?app_assoc.
Qed.

Lemma bad_address_configured : configured Examples.bad_address 90.
Proof. split; vm_compute; reflexivity. Qed.

Lemma main_stops_at_invalid_contract_witness :
  main Examples.bad_address 2 3 io0
  = (Ret tt,
     {| tick := 2;
        trace := [ELog ERROR MsgContractsFailed;
                  ELog ERROR (MsgInvalidAddress "0xDestBridge");
                  ELog INFO (MsgConnected "http://dest"); EConnect "http://dest";
                  ELog INFO (MsgConnected "http://source");
                  EConnect "http://source";
                  ELog INFO MsgInitializing] |}).
Proof.
  apply (main_stops_at_invalid_contract Examples.bad_address 2 3 90 io0).
  - exact bad_address_configured.
  - reflexivity.
  - reflexivity.
  - vm_compute. reflexivity.
Defined.

Lemma after_nothing i : after 0 [] i = i.
Proof. now destruct i. Qed.

Lemma configured_key env START_BLOCK :
  configured env START_BLOCK -> str_falsy (relayer_key env) = false.
Proof.
  intros (_ & Hfirst). apply first_unset_None in Hfirst.
  unfold required_vars in Hfirst.
  do 4 (apply Forall_cons in Hfirst as [_ Hfirst]).
  apply Forall_cons in Hfirst as [Hkey _]. simpl in Hkey.
  unfold relayer_key. now destruct (getenv env "RELAYER_PRIVATE_KEY").
Qed.

Lemma relayer_init_returns env relayer_pk START_BLOCK i address :
  str_falsy relayer_pk = false ->
  from_key env (tick i) relayer_pk = Returns address ->
  BridgeRelayer_init env relayer_pk START_BLOCK i
  = (Ret {| relayer_address := address;
            processed_nonces := ∅;
            last_processed_block := START_BLOCK;
            reorg_safety_margin := 5 |},
     after 1 [ELog INFO (MsgStartingScan START_BLOCK);
              ELog INFO (MsgRelayerInitialized address);
              EFromKey relayer_pk] i).
Proof.
  intros Hpk Hkey.
  unfold BridgeRelayer_init, bind, call, log, emit, ret.
  now rewrite Hpk, Hkey.
Qed.

(** X16: once the configuration is complete, both nodes answer, both
    contract addresses are valid and the key is accepted, [main] never
    returns: it builds a relayer with the address of the key, no processed
    nonce, the watermark at [START_BLOCK] and a margin of 5 blocks, and runs
    its loop with a poll interval of 15 seconds for ever; whatever the
    bounds of the model, the run stops on a bound.  The constructor's check
    for an empty key cannot fail here, the validation has excluded it. *)
Theorem main_runs_forever env cycles fuel START_BLOCK i address :
  configured env START_BLOCK ->
  connect env (tick i) (source_url env) = Returns tt ->
  connect env (S (tick i)) (dest_url env) = Returns tt ->
  is_address env (source_address env) = true ->
  is_address env (dest_address env) = true ->
  from_key env (S (S (tick i))) (relayer_key env) = Returns address ->
  main env cycles fuel i
  = with_relayer
      {| relayer_address := address;
         processed_nonces := ∅;
         last_processed_block := START_BLOCK;
         reorg_safety_margin := 5 |}
      (run env cycles fuel 15)
      (after 3 ([ELog INFO (MsgStartingScan START_BLOCK);
                 ELog INFO (MsgRelayerInitialized address);
                 EFromKey (relayer_key env)] ++ connected_trace env) i)
  /\ (main env cycles fuel i).1 = OutOfFuel.
Proof.
  intros Hcfg Hsrc Hdst Hsa Hda Hkey.
  assert (Hbody : main_body env cycles fuel START_BLOCK i
                  = with_relayer
                      {| relayer_address := address;
                         processed_nonces := ∅;
                         last_processed_block := START_BLOCK;
                         reorg_safety_margin := 5 |}
                      (run env cycles fuel 15)
                      (after 3 ([ELog INFO (MsgStartingScan START_BLOCK);
                                 ELog INFO (MsgRelayerInitialized address);
                                 EFromKey (relayer_key env)]
                                ++ connected_trace env) i)).
  { rewrite main_body_begins.
    erewrite bind_Ret; [|apply connector_connects; exact Hsrc].
    erewrite bind_Ret; [|apply connector_connects; exact Hdst].
    erewrite bind_Ret; [|apply get_contract_logs].
    erewrite bind_Ret; [|apply get_contract_logs].
    unfold address_log. rewrite Hsa, Hda, !after_nothing.
    erewrite bind_Ret.
    2:{ apply relayer_init_returns; [eapply configured_key; eauto | exact Hkey]. }
    f_equal. }
  assert (Hres : (main_body env cycles fuel START_BLOCK i).1 = OutOfFuel).
  { rewrite Hbody. unfold with_relayer.
    match goal with
    | |- (let '(_, _) := run env cycles fuel 15 ?w0 in _).1 = _ =>
        pose proof (run_loop_no_exit env cycles fuel 15
                      (with_io w0 (after 0 [ELog INFO MsgLoopStart] (io w0)))) as Hloop;
        rewrite <- run_unfold in Hloop;
        destruct (run env cycles fuel 15 w0) as [res w1]
    end.
    exact Hloop. }
  rewrite (main_configured env cycles fuel START_BLOCK i Hcfg).
  unfold try_except.
  destruct (main_body env cycles fuel START_BLOCK i) as [[u|e|] i1] eqn:Hrun;
    simpl in Hres; try discriminate.
  split; [now rewrite <- Hbody | reflexivity].
Qed.

Lemma configured_node_configured : configured Examples.configured_node 90.
Proof. split; vm_compute; reflexivity. Qed.

Lemma main_runs_forever_witness :
  (main Examples.configured_node 2 3 io0).1 = OutOfFuel.
Proof.
  apply (main_runs_forever Examples.configured_node 2 3 90 io0 "0xRelayer").
  - exact configured_node_configured.
  - reflexivity.
  - reflexivity.
  - reflexivity.
  - reflexivity.
  - reflexivity.
Defined.

(** ** Start-up and loop together *)

Lemma connector_sent env rpc_url i r i' :
  BlockchainConnector_init env rpc_url i = (r, i') ->
  sent (trace i') = sent (trace i).
Proof.
  destruct (connect env (tick i) rpc_url) as [[]|e] eqn:Hconnect.
  - rewrite (connector_connects env rpc_url i Hconnect).
    intros Heq. now inversion Heq.
  - rewrite (connector_fails env rpc_url i e Hconnect).
    intros Heq. inversion Heq; subst. unfold connect_failure_log.
    now destruct (is_RequestException e).
Qed.

Lemma get_contract_sent env address i r i' :
  get_contract env address i = (r, i') ->
  sent (trace i') = sent (trace i).
Proof.
  rewrite get_contract_logs. intros Heq. inversion Heq; subst.
  unfold address_log. now destruct (is_address env address).
Qed.

Lemma relayer_init_sent env relayer_pk START_BLOCK i r i' :
  BridgeRelayer_init env relayer_pk START_BLOCK i = (r, i') ->
  sent (trace i') = sent (trace i).
Proof.
  unfold BridgeRelayer_init, bind, call, log, emit, ret, raise.
  destruct (str_falsy relayer_pk).
  - intros Heq. now inversion Heq.
  - destruct (from_key env (tick i) relayer_pk); intros Heq; now inversion Heq.
Qed.

(** Sequencing a step that submits nothing with a continuation. *)
Lemma bind_sent {A B} (m : M IO A) (k : A -> M IO B) i :
  sent (trace i) = [] ->
  (forall r i', m i = (r, i') -> sent (trace i') = sent (trace i)) ->
  (forall a i', sent (trace i') = [] -> NoDup (sent (trace (k a i').2))) ->
  NoDup (sent (trace (bind m k i).2)).
Proof.
  intros Hi Hm Hk. unfold bind.
  destruct (m i) as [[a|e|] i'] eqn:Hrun; pose proof (Hm _ _ eq_refl) as Hi'.
  - apply Hk. congruence.
  - simpl. rewrite Hi', Hi. constructor.
  - simpl. rewrite Hi', Hi. constructor.
Qed.

Lemma main_body_sent env cycles fuel START_BLOCK i :
  sent (trace i) = [] ->
  NoDup (sent (trace (main_body env cycles fuel START_BLOCK i).2)).
Proof.
  intros Hi. rewrite main_body_begins.
  apply bind_sent; [exact Hi | apply connector_sent |].
  intros _ i1 Hi1.
  apply bind_sent; [exact Hi1 | apply connector_sent |].
  intros _ i2 Hi2.
  apply bind_sent; [exact Hi2 | apply get_contract_sent |].
  intros source_contract i3 Hi3.
  apply bind_sent; [exact Hi3 | apply get_contract_sent |].
  intros dest_contract i4 Hi4.
  assert (Hstop : NoDup (sent (trace (log ERROR MsgContractsFailed i4).2))).
  { simpl. rewrite Hi4. constructor. }
  destruct source_contract as [sc|]; [|exact Hstop].
  destruct dest_contract as [dc|]; [|exact Hstop].
  apply bind_sent; [exact Hi4 | apply relayer_init_sent |].
  intros relayer i5 Hi5.
  unfold with_relayer.
  pose proof (run_keeps_delivered_once env cycles fuel 15
                {| self := relayer; io := i5 |}) as Hrun.
  destruct (run env cycles fuel 15 {| self := relayer; io := i5 |}) as [res w1].
  simpl in *. apply Hrun.
  split; simpl; rewrite Hi5; [constructor|].
  intros n Hin. now apply elem_of_nil in Hin.
Qed.

(** X17: a process started by [main] submits no nonce twice.  Whatever the
    configuration and whatever the nodes answer, at every point of the run
    the submissions in the trace are for distinct nonces. *)
Theorem main_submits_once env cycles fuel i :
  sent (trace i) = [] ->
  NoDup (sent (trace (main env cycles fuel i).2)).
Proof.
  intros Hi. unfold main.
  destruct (py_int env (default "0" (getenv env "START_BLOCK"))) as [sb|].
  2:{ simpl. rewrite Hi. constructor. }
  destruct (first_unset (required_vars env)).
  { simpl. rewrite Hi. constructor. }
  pose proof (main_body_sent env cycles fuel sb i Hi) as Hbody.
  unfold try_except.
  destruct (main_body env cycles fuel sb i) as [[u|e|] i1]; try exact Hbody.
  destruct (is_ConnectionError e); exact Hbody.
Qed.

Lemma main_submits_once_witness :
  NoDup (sent (trace (main Examples.configured_node 3 5 io0).2))
  /\ sent (trace (main Examples.configured_node 3 5 io0).2) = [8; 7].
Proof.
  split; [|vm_compute; reflexivity].
  apply main_submits_once. reflexivity.
Defined.

(** ** The scanner: the number of queries *)

Lemma chunk_count_step a max_range :
  0 < max_range -> max_range <= a ->
  a / max_range = (a - max_range) / max_range + 1.
Proof.
  intros Hmax Hle.
  replace a with ((a - max_range) + 1 * max_range) at 1 by lia.
  apply Z.div_add. lia.
Qed.

Lemma scan_loop_calls env fuel to_block max_range start all_events i evs i' :
  0 < max_range ->
  answers_from env 0 ->
  start <= to_block ->
  scan_loop env fuel to_block max_range start all_events i = (Ret evs, i') ->
  tick i' = (tick i + Z.to_nat ((to_block - start) / max_range + 1))%nat.
Proof.
  intros Hmax Hnode. revert start all_events i.
  induction fuel as [|fuel IH]; intros start all_events i Hle Hrun.
  - rewrite scan_loop_exhausted in Hrun by done. discriminate.
  - destruct (get_logs env (tick i) start (chunk_end start max_range to_block))
      as [event_logs|e] eqn:Hget.
    2:{ destruct (Hnode (tick i) start (chunk_end start max_range to_block))
          as (l & Hl); [lia | congruence]. }
    rewrite (scan_loop_fetched env fuel _ _ _ _ _ _ Hle Hget) in Hrun.
    destruct (Z_lt_le_dec (start + max_range - 1) to_block) as [Hmore|Hlast].
    + assert (Hend : chunk_end start max_range to_block = start + max_range - 1)
        by (unfold chunk_end; lia).
      rewrite Hend in Hrun. apply IH in Hrun; [|lia].
      rewrite Hrun. unfold after. cbn [tick].
      rewrite (chunk_count_step (to_block - start) max_range) by lia.
      replace (to_block - (start + max_range - 1 + 1))
        with (to_block - start - max_range) by lia.
      assert (0 <= (to_block - start - max_range) / max_range)
        by (apply Z.div_pos; lia).
      lia.
    + assert (Hend : chunk_end start max_range to_block = to_block)
        by (unfold chunk_end; lia).
      rewrite Hend in Hrun. rewrite scan_loop_done in Hrun by lia.
      inversion Hrun; subst. unfold after. cbn [tick].
      rewrite Z.div_small by lia. simpl. lia.
Qed.

(** X18: against a source node that never fails, a scan of a window that
    is not empty makes exactly [(to_block - from_block) / max_range + 1]
    queries, the number of chunks of [max_range] blocks the window needs,
    and nothing else that counts as an external call. *)
Theorem scan_blocks_query_count env fuel name from_block to_block max_range i evs i' :
  0 < max_range ->
  answers_from env 0 ->
  from_block <= to_block ->
  scan_blocks env fuel name from_block to_block max_range i = (Ret evs, i') ->
  tick i' = (tick i + Z.to_nat ((to_block - from_block) / max_range + 1))%nat.
Proof.
  intros Hmax Hnode Hle. unfold scan_blocks.
  destruct (from_block >? to_block) eqn:Hcmp; [apply Z.gtb_lt in Hcmp; lia|].
  unfold bind, log, emit. intros Hrun.
  apply (scan_loop_calls env fuel to_block max_range from_block [] _ evs i' Hmax Hnode Hle)
    in Hrun.
  exact Hrun.
Qed.

Lemma steady_node_answers : answers_from Examples.steady_node 0.
Proof. intros t a b _. now eexists. Qed.

Lemma scan_blocks_query_count_witness :
  tick (scan_blocks Examples.steady_node 9 "TokensLocked" 91 95 2 io0).2 = 3%nat.
Proof.
  apply (scan_blocks_query_count Examples.steady_node 9 "TokensLocked" 91 95 2 io0
           (in_range 91 95 Examples.ledger)).
  - lia.
  - exact steady_node_answers.
  - lia.
  - vm_compute. reflexivity.
Defined.

(** ** The relayer: from cycle to cycle *)




Lemma caught_up_progress ledger lo w w' :
  progress w w' ->
  last_processed_block (self w') = last_processed_block (self w) ->
  caught_up ledger lo w -> caught_up ledger lo w'.
Proof.
  intros (_ & _ & _ & Hsub) Hlast Hw ev Hin Hlo Hhi.
  rewrite Hlast in Hhi. destruct (Hw ev Hin Hlo Hhi) as (a & Ha & Hn).
  exists a. split; [exact Ha|]. now apply Hsub.
Qed.

Lemma run_cycle_caught_up env ledger lo fuel poll w r w' :
  ledger_node env ledger ->
  reliable_destination env ->
  Forall (fun ev => is_Some (args ev)) ledger ->
  caught_up ledger lo w ->
  run_cycle env fuel poll w = (r, w') ->
  caught_up ledger lo w'.
Proof.
  intros Hnode Hdest Hargs Hw Hrun.
  pose proof (run_cycle_progress env fuel poll w r w' Hrun) as Hprog.
  destruct (run_cycle_outcome env fuel poll w) as (r1 & w1 & Hrun1 & Hout).
  rewrite Hrun in Hrun1. inversion Hrun1; subst r1 w1. clear Hrun1.
  inversion Hout as [e He | H0 Hh Hno | H0 i1 Hh Hl Hscan
                    | H0 evs i1 w2 Hh Hl Hscan Hloop Hst Hall]; subst;
    try (eapply caught_up_progress; [exact Hprog | reflexivity | exact Hw]).
  destruct (cycle_relays_ledger env ledger fuel poll w H0 evs i1
              Hnode Hdest Hargs Hh Hl Hscan) as (w3 & Hrun3 & Hlast3 & Hnew).
  rewrite Hrun in Hrun3. inversion Hrun3 as [Hw3]. rewrite <- Hw3 in *.
  intros ev Hin Hlo Hhi.
  destruct (Z_le_gt_dec (blockNumber ev) (last_processed_block (self w)))
    as [Hold|Hfresh].
  - destruct (Hw ev Hin Hlo Hold) as (a & Ha & Hn).
    exists a. split; [exact Ha|].
    destruct Hprog as (_ & _ & _ & Hsub). now apply Hsub.
  - apply Hnew; [exact Hin | lia |]. rewrite Hlast3 in Hhi. exact Hhi.
Qed.

(** X20: with nodes that behave, the watermark tells the truth.  When the
    source node answers from a ledger whose events all carry their
    arguments (it may still fail and be retried) and the destination node
    answers every call, then after any number of cycles every ledger event
    above the watermark the run started with and up to the watermark it has
    reached has its nonce in [processed_nonces]. *)
Theorem run_catches_up env ledger cycles fuel poll w :
  ledger_node env ledger ->
  reliable_destination env ->
  Forall (fun ev => is_Some (args ev)) ledger ->
  caught_up ledger (last_processed_block (self w)) (run env cycles fuel poll w).2.
Proof.
  intros Hnode Hdest Hargs. rewrite run_unfold.
  apply (run_loop_invariant env (caught_up ledger (last_processed_block (self w)))).
  - intros f p w1 r w2 Hw1 Hrun.
    eapply run_cycle_caught_up; eauto.
  - intros ev Hin Hlo Hhi. simpl in Hhi. lia.
Qed.

Lemma run_catches_up_witness :
  caught_up Examples.ledger 90
    (run Examples.steady_node 3 3 15 (Scenario.world_at 90 ∅)).2
  /\ last_processed_block
       (self (run Examples.steady_node 3 3 15 (Scenario.world_at 90 ∅)).2) = 95.
Proof.
  split; [|vm_compute; reflexivity].
  apply (run_catches_up Examples.steady_node Examples.ledger 3 3 15
           (Scenario.world_at 90 ∅)).
  - exact steady_node_ledger.
  - exact steady_node_reliable.
  - repeat constructor; now eexists.
Defined.

(** ** The relayer: the order of the submissions *)



